(** * coolcode: the segment model and the escape encoder of [src/App.tsx]

    A shallow embedding of the two [App] components of [src/App.tsx]:
    the segmented editor (first definition, lines 50-508) and the older
    whole-text generator (second definition, lines 554-845).

    React state is a record; every event handler is a function from the
    state of the current render to the state of the next one.  JavaScript
    strings are sequences of UTF-16 code units, numbers that index them
    are integers. *)

From Stdlib Require Import ZArith List Bool Ascii String Lia.
Import ListNotations.
Open Scope Z_scope.

(** ** JavaScript primitives *)

Module JS.

(** A string is a list of UTF-16 code units. *)
Definition jsstring := list N.

(** A string literal of the source. *)
Definition lit (s : string) : jsstring :=
  map N_of_ascii (list_ascii_of_string s).

(** [s.length] *)
Definition len {A} (s : list A) : Z := Z.of_nat (List.length s).

(** A string is falsy exactly when it is empty. *)
Definition truthy (s : jsstring) : bool :=
  match s with [] => false | _ :: _ => true end.

(** Truthiness of a [string | null] (or [string | undefined]) value. *)
Definition truthyOpt (v : option jsstring) : bool :=
  match v with Some s => truthy s | None => false end.

(** [a || b] where [a] is [string | undefined] and [b] is
    [string | null]: the left operand when it is truthy. *)
Definition or (a b : option jsstring) : option jsstring :=
  if truthyOpt a then a else b.

(** The relative index of [String.prototype.slice]: a negative index
    counts from the end, and the result is clamped to [0, len]. *)
Definition relIndex (n i : Z) : Z :=
  if i <? 0 then Z.max (n + i) 0 else Z.min i n.

(** [s.slice(start, end)]; [None] is an omitted [end]. *)
Definition slice (s : jsstring) (start : Z) (end_ : option Z) : jsstring :=
  let n := len s in
  let from := relIndex n start in
  let to := match end_ with Some e => relIndex n e | None => n end in
  firstn (Z.to_nat (to - from)) (skipn (Z.to_nat from) s).

(** [codes.join(sep)] *)
Fixpoint join (sep : jsstring) (l : list jsstring) : jsstring :=
  match l with
  | [] => []
  | [x] => x
  | x :: rest => x ++ sep ++ join sep rest
  end.

(** White space and line terminators of ECMAScript, the code units
    that [trim] strips. *)
Definition isWhiteSpace (c : N) : bool :=
  existsb (N.eqb c)
    [ 9; 10; 11; 12; 13; 32; 160; 5760;
      8192; 8193; 8194; 8195; 8196; 8197; 8198; 8199; 8200; 8201; 8202;
      8232; 8233; 8239; 8287; 12288; 65279 ]%N.

Fixpoint trimStart (s : jsstring) : jsstring :=
  match s with
  | c :: rest => if isWhiteSpace c then trimStart rest else s
  | [] => []
  end.

(** [s.trim()] *)
Definition trim (s : jsstring) : jsstring :=
  rev (trimStart (rev (trimStart s))).

(** [arr.includes(x)] and [arr.filter(y => y !== x)] on strings. *)
Definition streq (a b : jsstring) : bool :=
  if list_eq_dec N.eq_dec a b then true else false.

Definition includes (l : list jsstring) (x : jsstring) : bool :=
  existsb (streq x) l.

End JS.

Import JS.

(** ** Data model (lines 4-48) *)

Inductive ColorType := foregroundType | backgroundType.

Record ColorOption := mkColor {
  colorName : jsstring;
  colorCode : jsstring;
  preview : jsstring;
  colorType : ColorType
}.

Record StyleOption := mkStyle {
  styleName : jsstring;
  styleCode : jsstring
}.

Record TextSegment := mkSegment {
  text : jsstring;
  foreground : option jsstring;
  background : option jsstring;
  styles : list jsstring
}.

Definition colorEqb (a b : ColorOption) : bool :=
  streq (colorName a) (colorName b) && streq (colorCode a) (colorCode b)
  && streq (preview a) (preview b)
  && match colorType a, colorType b with
     | foregroundType, foregroundType | backgroundType, backgroundType => true
     | _, _ => false
     end.

Definition foregroundColors : list ColorOption :=
  [ mkColor (lit "Dark Gray") (lit "30") (lit "#4f545c") foregroundType;
    mkColor (lit "Red") (lit "31") (lit "#dc322f") foregroundType;
    mkColor (lit "Yellowish Green") (lit "32") (lit "#859900") foregroundType;
    mkColor (lit "Gold") (lit "33") (lit "#b58900") foregroundType;
    mkColor (lit "Light Blue") (lit "34") (lit "#268bd2") foregroundType;
    mkColor (lit "Pink") (lit "35") (lit "#d33682") foregroundType;
    mkColor (lit "Teal") (lit "36") (lit "#2aa198") foregroundType;
    mkColor (lit "White") (lit "37") (lit "#ffffff") foregroundType ].

Definition backgroundColors : list ColorOption :=
  [ mkColor (lit "Blueish Black") (lit "40") (lit "#002b36") backgroundType;
    mkColor (lit "Rust Brown") (lit "41") (lit "#cb4b16") backgroundType;
    mkColor (lit "Gray 40%") (lit "42") (lit "#586e75") backgroundType;
    mkColor (lit "Gray 45%") (lit "43") (lit "#657b83") backgroundType;
    mkColor (lit "Light Gray 55%") (lit "44") (lit "#839496") backgroundType;
    mkColor (lit "Blurple") (lit "45") (lit "#6c71c4") backgroundType;
    mkColor (lit "Light Gray 60%") (lit "46") (lit "#93a1a1") backgroundType;
    mkColor (lit "Cream White") (lit "47") (lit "#fdf6e3") backgroundType ].

Definition textStyles : list StyleOption :=
  [ mkStyle (lit "Bold") (lit "1");
    mkStyle (lit "Underline") (lit "4") ].

(** The escape introducer, the reset sequence and the fence of the
    output format. *)
Definition ESC : jsstring := [27%N].
Definition resetCode : jsstring := ESC ++ lit "[0m".
Definition LF : jsstring := [10%N].
Definition fenceOpen : jsstring := lit "```ansi" ++ LF.
Definition fenceClose : jsstring := LF ++ lit "```".

(** [\u001b[${codes.join(';')}m], the template of lines 212 and 582. *)
Definition ansiCode (codes : list jsstring) : jsstring :=
  ESC ++ lit "[" ++ join (lit ";") codes ++ lit "m".

(** ** The segmented editor (first [App], lines 50-250) *)

Module Segmented.

(** The [useState] cells of lines 51-58.  [copied] only drives the
    label of the copy button and is left out. *)
Record AppState := mkState {
  inputText : jsstring;
  segments : list TextSegment;
  selectedForeground : option ColorOption;
  selectedBackground : option ColorOption;
  selectedStyles : list jsstring;
  selectionStart : option Z;
  selectionEnd : option Z
}.

Definition initialState : AppState :=
  mkState [] [] None None [] None None.

Definition setInputText (v : jsstring) (st : AppState) : AppState :=
  mkState v (segments st) (selectedForeground st) (selectedBackground st)
    (selectedStyles st) (selectionStart st) (selectionEnd st).

Definition setSegments (v : list TextSegment) (st : AppState) : AppState :=
  mkState (inputText st) v (selectedForeground st) (selectedBackground st)
    (selectedStyles st) (selectionStart st) (selectionEnd st).

Definition setSelectedForeground (v : option ColorOption) (st : AppState)
  : AppState :=
  mkState (inputText st) (segments st) v (selectedBackground st)
    (selectedStyles st) (selectionStart st) (selectionEnd st).

Definition setSelectedBackground (v : option ColorOption) (st : AppState)
  : AppState :=
  mkState (inputText st) (segments st) (selectedForeground st) v
    (selectedStyles st) (selectionStart st) (selectionEnd st).

Definition setSelectedStyles (v : list jsstring) (st : AppState) : AppState :=
  mkState (inputText st) (segments st) (selectedForeground st)
    (selectedBackground st) v (selectionStart st) (selectionEnd st).

Definition setSelection (s e : option Z) (st : AppState) : AppState :=
  mkState (inputText st) (segments st) (selectedForeground st)
    (selectedBackground st) (selectedStyles st) s e.

(** A single segment holding [t] with no attribute (lines 63-68, 77-82
    and 239-244). *)
Definition plain (t : jsstring) : TextSegment := mkSegment t None None [].

(** [s.foreground || s.background || s.styles.length > 0] (line 292). *)
Definition hasStyle (seg : TextSegment) : bool :=
  truthyOpt (foreground seg) || truthyOpt (background seg)
  || (len (styles seg) >? 0).

(** The effect of lines 61-70, run after a render. *)
Definition syncEffect (st : AppState) : AppState :=
  if (len (segments st) =? 0) && truthy (inputText st)
  then setSegments [plain (inputText st)] st
  else st.

(** The guard of line 76. *)
Definition nothingStyledYet (segs : list TextSegment) : bool :=
  match segs with
  | [] => true
  | [seg0] =>
      negb (truthyOpt (foreground seg0))
      && negb (truthyOpt (background seg0))
      && (len (styles seg0) =? 0)
  | _ => false
  end.

(** [segments.reduce((sum, seg) => sum + seg.text.length, 0)] *)
Definition totalLength (segs : list TextSegment) : Z :=
  fold_left (fun sum seg => sum + len (text seg)) segs 0.

Definition withText (seg : TextSegment) (t : jsstring) : TextSegment :=
  mkSegment t (foreground seg) (background seg) (styles seg).

(** [arr[i] = v] for an index inside the array. *)
Fixpoint assign {A} (l : list A) (i : nat) (v : A) : list A :=
  match l, i with
  | [], _ => []
  | _ :: rest, O => v :: rest
  | x :: rest, S j => x :: assign rest j v
  end.

(** The loop of lines 99-111; [updatedSegments.push] appends. *)
Fixpoint shrinkLoop (segs : list TextSegment) (remaining : Z)
    (updatedSegments : list TextSegment) : list TextSegment :=
  match segs with
  | [] => updatedSegments
  | seg :: rest =>
      if remaining <=? 0 then updatedSegments
      else if remaining >=? len (text seg)
      then shrinkLoop rest (remaining - len (text seg))
             (updatedSegments ++ [seg])
      else shrinkLoop rest 0
             (updatedSegments
                ++ [withText seg (slice (text seg) 0 (Some remaining))])
  end.

(** Lines 72-115.  In the growth branch the Document is not empty
    (the guard of line 76 took the empty one), so [lastSegment] exists
    and the assignment of line 90 is inside the array. *)
Definition handleTextChange (newText : jsstring) (st0 : AppState)
  : AppState :=
  let st := setInputText newText st0 in
  let segs := segments st0 in
  if nothingStyledYet segs then setSegments [plain newText] st
  else
    let totalCurrentLength := totalLength segs in
    let diff := len newText - totalCurrentLength in
    if diff >? 0 then
      match nth_error segs (List.length segs - 1)%nat with
      | Some lastSegment =>
          setSegments
            (assign segs (List.length segs - 1)%nat
               (withText lastSegment
                  (text lastSegment
                     ++ slice newText totalCurrentLength None)))
            st
      | None => st
      end
    else if diff <? 0 then setSegments (shrinkLoop segs (len newText) []) st
    else st.

(** Lines 117-130, for the mounted textarea; [start] and [end_] are
    its [selectionStart] and [selectionEnd]. *)
Definition handleTextSelect (start end_ : Z) (st : AppState) : AppState :=
  if negb (start =? end_) then setSelection (Some start) (Some end_) st
  else setSelection None None st.

(** The object literal of lines 160-165: [overlapText] with every
    attribute taken from the user's choice when there is one, from
    [segment] otherwise. *)
Definition restyled (st : AppState) (segment : TextSegment)
    (overlapText : jsstring) : TextSegment :=
  mkSegment overlapText
    (JS.or (option_map colorCode (selectedForeground st)) (foreground segment))
    (JS.or (option_map colorCode (selectedBackground st)) (background segment))
    (if len (selectedStyles st) >? 0
     then selectedStyles st else styles segment).

(** One iteration of the loop of lines 142-177: the pushes onto
    [newSegments] for [segment], which starts at [currentPos]. *)
Definition restyleSegment (st : AppState) (selStart selEnd : Z)
    (currentPos : Z) (segment : TextSegment)
    (newSegments : list TextSegment) : list TextSegment :=
  let segmentEnd := currentPos + len (text segment) in
  if (segmentEnd <=? selStart) || (currentPos >=? selEnd)
  then newSegments ++ [segment]
  else
    let ns1 :=
      if currentPos <? selStart
      then newSegments
             ++ [withText segment
                   (slice (text segment) 0 (Some (selStart - currentPos)))]
      else newSegments in
    let overlapStart := Z.max 0 (selStart - currentPos) in
    let overlapEnd := Z.min (len (text segment)) (selEnd - currentPos) in
    let overlapText := slice (text segment) overlapStart (Some overlapEnd) in
    let ns2 :=
      if truthy overlapText
      then ns1 ++ [restyled st segment overlapText]
      else ns1 in
    if segmentEnd >? selEnd
    then ns2
           ++ [withText segment
                 (slice (text segment) (selEnd - currentPos) None)]
    else ns2.

Fixpoint restyleLoop (st : AppState) (selStart selEnd : Z)
    (segs : list TextSegment) (currentPos : Z)
    (newSegments : list TextSegment) : list TextSegment :=
  match segs with
  | [] => newSegments
  | segment :: rest =>
      restyleLoop st selStart selEnd rest
        (currentPos + len (text segment))
        (restyleSegment st selStart selEnd currentPos segment newSegments)
  end.

(** Lines 132-187.  The textarea's own caret (lines 183-186) is not
    part of the state. *)
Definition applyFormattingToSelection (st : AppState) : AppState :=
  match selectionStart st, selectionEnd st with
  | Some selStart, Some selEnd =>
      if selStart =? selEnd then st
      else
        setSelection None None
          (setSegments (restyleLoop st selStart selEnd (segments st) 0 []) st)
  | _, _ => st
  end.

(** The codes of one segment, lines 197-209. *)
Definition segmentCodes (segment : TextSegment) : list jsstring :=
  let codes := [] in
  let codes :=
    if len (styles segment) >? 0 then codes ++ styles segment else codes in
  let codes :=
    match foreground segment with
    | Some fg => if truthy fg then codes ++ [fg] else codes
    | None => codes
    end in
  match background segment with
  | Some bg => if truthy bg then codes ++ [bg] else codes
  | None => codes
  end.

(** The loop of lines 194-216. *)
Fixpoint encodeLoop (segs : list TextSegment) (result : jsstring)
  : jsstring :=
  match segs with
  | [] => result
  | segment :: rest =>
      if negb (truthy (text segment)) then encodeLoop rest result
      else
        let codes := segmentCodes segment in
        if len codes >? 0
        then encodeLoop rest
               (result ++ ansiCode codes ++ text segment ++ resetCode)
        else encodeLoop rest (result ++ text segment)
  end.

(** Lines 189-220. *)
Definition generateColoredText (st : AppState) : jsstring :=
  if negb (truthy (trim (inputText st))) || (len (segments st) =? 0)
  then []
  else encodeLoop (segments st) fenceOpen ++ fenceClose.

(** Lines 232-236. *)
Definition toggleStyle (code : jsstring) (st : AppState) : AppState :=
  let prev := selectedStyles st in
  setSelectedStyles
    (if includes prev code
     then filter (fun s => negb (streq s code)) prev
     else prev ++ [code])
    st.

(** Lines 238-248. *)
Definition clearAll (st : AppState) : AppState :=
  setSelectedStyles []
    (setSelectedBackground None
       (setSelectedForeground None
          (setSegments [plain (inputText st)] st))).

(** The [onClick] of a foreground swatch (lines 339-343) and of a
    background swatch (lines 371-375). *)
Definition sameCode (sel : option ColorOption) (color : ColorOption) : bool :=
  match sel with
  | Some c => streq (colorCode c) (colorCode color)
  | None => false
  end.

Definition pickForeground (color : ColorOption) (st : AppState) : AppState :=
  setSelectedForeground
    (if sameCode (selectedForeground st) color then None else Some color) st.

Definition pickBackground (color : ColorOption) (st : AppState) : AppState :=
  setSelectedBackground
    (if sameCode (selectedBackground st) color then None else Some color) st.

(** Line 250: whether the apply button and its hint are rendered. *)
Definition hasSelection (st : AppState) : bool :=
  match selectionStart st, selectionEnd st with
  | Some s, Some e => negb (s =? e)
  | _, _ => false
  end.

(** Line 292: whether the clear-all button is rendered. *)
Definition showClearAll (st : AppState) : bool :=
  existsb hasStyle (segments st).

(** The events of the component. *)
Inductive Event :=
| TextChange (newText : jsstring)
| TextSelect (start end_ : Z)
| ClickForeground (color : ColorOption)
| ClickBackground (color : ColorOption)
| ClickStyle (code : jsstring)
| ClickApply
| ClickClearAll.

Definition handle (ev : Event) (st : AppState) : AppState :=
  match ev with
  | TextChange newText => handleTextChange newText st
  | TextSelect start end_ => handleTextSelect start end_ st
  | ClickForeground color => pickForeground color st
  | ClickBackground color => pickBackground color st
  | ClickStyle code => toggleStyle code st
  | ClickApply => applyFormattingToSelection st
  | ClickClearAll => clearAll st
  end.

(** A handler runs, the component renders again and its effect runs. *)
Definition step (ev : Event) (st : AppState) : AppState :=
  syncEffect (handle ev st).

Fixpoint run (evs : list Event) (st : AppState) : AppState :=
  match evs with
  | [] => st
  | ev :: rest => run rest (step ev st)
  end.

(** What the browser and the rendered buttons guarantee of an event in
    state [st]: the textarea reports a selection inside its value with
    [start <= end]; the swatches and style buttons are those of the
    three tables. *)
Definition eventOk (st : AppState) (ev : Event) : bool :=
  match ev with
  | TextSelect start end_ =>
      (0 <=? start) && (start <=? end_) && (end_ <=? len (inputText st))
  | ClickForeground color => existsb (colorEqb color) foregroundColors
  | ClickBackground color => existsb (colorEqb color) backgroundColors
  | ClickStyle code => existsb (fun s => streq (styleCode s) code) textStyles
  | _ => true
  end.

Fixpoint wellFormed (evs : list Event) (st : AppState) : bool :=
  match evs with
  | [] => true
  | ev :: rest => eventOk st ev && wellFormed rest (step ev st)
  end.

End Segmented.

(** ** The whole-text generator (second [App], lines 554-608) *)

Module WholeText.

Record AppState := mkState {
  inputText : jsstring;
  selectedForeground : option ColorOption;
  selectedBackground : option ColorOption;
  selectedStyles : list jsstring
}.

(** Lines 561-586. *)
Definition generateColoredText (st : AppState) : jsstring :=
  if negb (truthy (trim (inputText st))) then []
  else
    let codes := [] in
    let codes :=
      if len (selectedStyles st) >? 0
      then codes ++ selectedStyles st else codes in
    let codes :=
      match selectedForeground st with
      | Some c => codes ++ [colorCode c]
      | None => codes
      end in
    let codes :=
      match selectedBackground st with
      | Some c => codes ++ [colorCode c]
      | None => codes
      end in
    if len codes =? 0
    then fenceOpen ++ inputText st ++ fenceClose
    else fenceOpen ++ ansiCode codes ++ inputText st ++ resetCode
           ++ fenceClose.

(** The [onChange] of the textarea, line 631. *)
Definition handleTextChange (newText : jsstring) (st : AppState) : AppState :=
  mkState newText (selectedForeground st) (selectedBackground st)
    (selectedStyles st).

(** Lines 598-602. *)
Definition toggleStyle (code : jsstring) (st : AppState) : AppState :=
  let prev := selectedStyles st in
  mkState (inputText st) (selectedForeground st) (selectedBackground st)
    (if includes prev code
     then filter (fun s => negb (streq s code)) prev
     else prev ++ [code]).

(** Lines 604-608. *)
Definition clearAll (st : AppState) : AppState :=
  mkState (inputText st) None None [].

(** Line 636: whether the clear-all button is rendered. *)
Definition showClearAll (st : AppState) : bool :=
  match selectedForeground st, selectedBackground st with
  | None, None => len (selectedStyles st) >? 0
  | _, _ => true
  end.

End WholeText.

(** ** Views of a Document used to state its properties *)

Import Segmented.

(** The attributes carried by a character: foreground, background and
    style flags of the segment it belongs to. *)
Definition Attrs : Type := option jsstring * option jsstring * list jsstring.

Definition attrsOf (seg : TextSegment) : Attrs :=
  (foreground seg, background seg, styles seg).

(** The characters of a segment, and of a Document, each with its
    attributes, in text order. *)
Definition charsOf (seg : TextSegment) : list (N * Attrs) :=
  map (fun c => (c, attrsOf seg)) (text seg).

Definition styledChars (segs : list TextSegment) : list (N * Attrs) :=
  flat_map charsOf segs.

(** The character at position [i] of the full text, with its attributes. *)
Definition charAt (segs : list TextSegment) (i : Z) : option (N * Attrs) :=
  if i <? 0 then None else nth_error (styledChars segs) (Z.to_nat i).

(** The attributes of a character after a restyle: those of
    [restyled], character by character. *)
Definition mergeAttrs (st : AppState) (a : Attrs) : Attrs :=
  let '(fg, bg, sty) := a in
  (JS.or (option_map colorCode (selectedForeground st)) fg,
   JS.or (option_map colorCode (selectedBackground st)) bg,
   if len (selectedStyles st) >? 0 then selectedStyles st else sty).

(** The characters [cs], the first of which stands at position [p],
    with the attributes of those inside [selStart, selEnd) merged. *)
Fixpoint restyleChars (st : AppState) (selStart selEnd p : Z)
    (cs : list (N * Attrs)) : list (N * Attrs) :=
  match cs with
  | [] => []
  | (c, a) :: rest =>
      (c, if (selStart <=? p) && (p <? selEnd) then mergeAttrs st a else a)
        :: restyleChars st selStart selEnd (p + 1) rest
  end.

(** The text of the Document: the segment texts one after the other. *)
Definition fullText (segs : list TextSegment) : jsstring :=
  List.concat (map text segs).

(** The codes of [textStyles]. *)
Definition styleCodes : list jsstring := map styleCode textStyles.

(** The attribute is absent or is the code of a colour of [table]. *)
Definition codeOf (table : list ColorOption) (v : option jsstring) : Prop :=
  match v with
  | None => True
  | Some code => In code (map colorCode table)
  end.

(** The style flags are codes of [textStyles], each at most once. *)
Definition flagsOk (flags : list jsstring) : Prop :=
  NoDup flags /\ Forall (fun code => In code styleCodes) flags.

(** The segment carries attributes of the style vocabulary only. *)
Definition inVocabulary (seg : TextSegment) : Prop :=
  codeOf foregroundColors (foreground seg)
  /\ codeOf backgroundColors (background seg)
  /\ flagsOk (styles seg).

(** The user's current choices are entries of the three tables. *)
Definition choicesOk (st : AppState) : Prop :=
  (forall color, selectedForeground st = Some color ->
     In color foregroundColors)
  /\ (forall color, selectedBackground st = Some color ->
      In color backgroundColors)
  /\ flagsOk (selectedStyles st).

(** The sum of the lengths of the segment texts. *)
Definition sumOfTextLengths (segs : list TextSegment) : Z :=
  fold_right (fun seg sum => len (text seg) + sum) 0 segs.

(** The codes of the choices [sty], [fg], [bg] in the order of the
    output format: style flags, foreground, background. *)
Definition chosenCodes (sty : list jsstring) (fg bg : option ColorOption)
  : list jsstring :=
  sty
    ++ match fg with Some color => [colorCode color] | None => [] end
    ++ match bg with Some color => [colorCode color] | None => [] end.

(** The text [t] between the escape sequence of [codes] and the reset
    sequence. *)
Definition escaped (codes : list jsstring) (t : jsstring) : jsstring :=
  ESC ++ lit "[" ++ join (lit ";") codes ++ lit "m" ++ t ++ ESC ++ lit "[0m".

(** I1: the segment lengths add up to the length of the full text. *)
Definition lengthInvariant (st : AppState) : Prop :=
  totalLength (segments st) = len (inputText st).

(** The stored selection, when there is one, is a non-empty range that
    starts inside the text. *)
Definition selectionInvariant (st : AppState) : Prop :=
  match selectionStart st, selectionEnd st with
  | Some s, Some e => 0 <= s < e
  | _, _ => True
  end.

(** I2: no segment has empty text. *)
Definition noEmptySegment (segs : list TextSegment) : Prop :=
  Forall (fun seg => text seg <> []) segs.

(** The box is empty and the Document is one unstyled segment with
    empty text. *)
Definition emptyBox (st : AppState) : Prop :=
  inputText st = [] /\ segments st = [plain []].

(** What every reachable state satisfies. *)
Definition reachableInvariant (st : AppState) : Prop :=
  lengthInvariant st /\ selectionInvariant st
  /\ (noEmptySegment (segments st) \/ emptyBox st).

(** The Document is empty or is exactly one segment with no style
    attribute at all. *)
Definition freshDocument (segs : list TextSegment) : Prop :=
  segs = [] \/ exists seg, segs = [seg] /\ hasStyle seg = false.

(** The text is empty or consists of white space only. *)
Definition isBlank (t : jsstring) : bool := forallb isWhiteSpace t.

(** The codes a truthy attribute contributes to the escape sequence. *)
Definition attributeCode (v : option jsstring) : list jsstring :=
  if truthyOpt v then match v with Some c => [c] | None => [] end else [].

(** The span one segment contributes to the output. *)
Definition span (seg : TextSegment) : jsstring :=
  if negb (truthy (text seg)) then []
  else if hasStyle seg
       then ansiCode (styles seg ++ attributeCode (foreground seg)
                        ++ attributeCode (background seg))
              ++ text seg ++ resetCode
       else text seg.

(** The style codes of [stored] listed in the declared order of
    [textStyles], bold before underline: the order the specification
    asks of the encoder. *)
Definition declaredOrder (stored : list jsstring) : list jsstring :=
  filter (includes stored) (map styleCode textStyles).

(** ** Event sequences used as examples *)

Definition red : ColorOption :=
  mkColor (lit "Red") (lit "31") (lit "#dc322f") foregroundType.
Definition blurple : ColorOption :=
  mkColor (lit "Blurple") (lit "45") (lit "#6c71c4") backgroundType.

(** Scenario 3 of the specification followed by scenario 5. *)
Definition helloWorld : list Event :=
  [ TextChange (lit "hello world"); TextSelect 0 5;
    ClickStyle (lit "1"); ClickForeground red; ClickApply;
    ClickStyle (lit "1"); ClickForeground red;
    TextSelect 6 11; ClickBackground blurple; ClickApply;
    TextChange (lit "hello wor") ].

(** [helloWorld] up to its last edit: scenario 3 of the specification. *)
Definition helloWorldStyled : list Event :=
  [ TextChange (lit "hello world"); TextSelect 0 5;
    ClickStyle (lit "1"); ClickForeground red; ClickApply;
    ClickStyle (lit "1"); ClickForeground red;
    TextSelect 6 11; ClickBackground blurple; ClickApply ].

(** "hello" in red, the whole of it selected again, Blurple picked as
    the only choice. *)
Definition redHelloSelected : AppState :=
  mkState (lit "hello") [mkSegment (lit "hello") (Some (lit "31")) None []]
    None (Some blurple) [] (Some 0) (Some 5).

(** "hello world" with "hello" in red, [3, 8) selected, underline
    picked (scenario 6 of the specification). *)
Definition acrossBoundary : AppState :=
  mkState (lit "hello world")
    [ mkSegment (lit "hello") (Some (lit "31")) None [lit "1"];
      mkSegment (lit " world") None None [] ]
    None None [lit "4"] (Some 3) (Some 8).

(** "hello" in red followed by an unstyled " world", nothing selected. *)
Definition redHelloWorld : AppState :=
  mkState (lit "hello world")
    [ mkSegment (lit "hello") (Some (lit "31")) None [];
      mkSegment (lit " world") None None [] ]
    None None [] None None.

(** "hello world" cut into two unstyled segments, as an application
    with nothing chosen leaves it. *)
Definition twoPlainSegments : AppState :=
  mkState (lit "hello world") [plain (lit "hello"); plain (lit " world")]
    None None [] None None.

(** The state [redHelloWorld] with [6, 11) selected and Blurple picked
    as background, and with [0, 2) selected and underline picked. *)
Definition worldBlurple : AppState :=
  mkState (lit "hello world") (segments redHelloWorld)
    None (Some blurple) [] (Some 6) (Some 11).

Definition heUnderlined : AppState :=
  mkState (lit "hello world") (segments redHelloWorld)
    None None [lit "4"] (Some 0) (Some 2).

(** Underline is switched on before bold, then applied to "hi". *)
Definition underlineThenBold : list Event :=
  [ TextChange (lit "hi"); TextSelect 0 2;
    ClickStyle (lit "4"); ClickStyle (lit "1"); ClickApply ].

(** One character is typed into the fresh box and deleted again. *)
Definition typeThenDelete : list Event :=
  [ TextChange (lit "a"); TextChange [] ].

(** "ab" is typed and made red; then both characters are replaced by
    two spaces in one edit. *)
Definition redAb : list Event :=
  [ TextChange (lit "ab"); TextSelect 0 2; ClickForeground red; ClickApply ].


(** The clicks by which the style flags [sty], the foreground [fg]
    and the background [bg] are chosen, starting with nothing chosen. *)
Definition pickAll (sty : list jsstring) (fg bg : option ColorOption)
  : list Event :=
  map ClickStyle sty
    ++ match fg with Some color => [ClickForeground color] | None => [] end
    ++ match bg with Some color => [ClickBackground color] | None => [] end.

(** The text [t] is typed into the fresh box and selected as a whole,
    the choices are made and applied. *)
Definition styleWholeText (t : jsstring) (sty : list jsstring)
    (fg bg : option ColorOption) : list Event :=
  [TextChange t; TextSelect 0 (len t)] ++ pickAll sty fg bg ++ [ClickApply].

(** ** Scenarios of the specification, run on the model *)

Example scenario_plain :
  generateColoredText (run [TextChange (lit "hello")] initialState)
  = lit "```ansi" ++ LF ++ lit "hello" ++ LF ++ lit "```".
Proof. reflexivity. Qed.

Example scenario_red :
  let st := run [TextChange (lit "hello"); TextSelect 0 5;
                 ClickForeground red; ClickApply] initialState in
  segments st = [mkSegment (lit "hello") (Some (lit "31")) None []]
  /\ generateColoredText st
     = lit "```ansi" ++ LF ++ ESC ++ lit "[31mhello" ++ ESC ++ lit "[0m"
         ++ LF ++ lit "```".
Proof. split; reflexivity. Qed.

Example scenario_growth :
  segments
    (run [TextChange (lit "hello"); TextSelect 0 5; ClickForeground red;
          ClickApply; TextChange (lit "hello there")] initialState)
  = [mkSegment (lit "hello there") (Some (lit "31")) None []].
Proof. reflexivity. Qed.

Example declaredOrder_underline_bold :
  declaredOrder [lit "4"; lit "1"] = [lit "1"; lit "4"].
Proof. reflexivity. Qed.

Example scenario_three_segments :
  segments (run helloWorld initialState)
  = [ mkSegment (lit "hello") (Some (lit "31")) None [lit "1"];
      mkSegment (lit " ") None None [];
      mkSegment (lit "wor") None (Some (lit "45")) [] ].
Proof. reflexivity. Qed.

Example scenario_across_boundary :
  segments (applyFormattingToSelection acrossBoundary)
  = [ mkSegment (lit "hel") (Some (lit "31")) None [lit "1"];
      mkSegment (lit "lo") (Some (lit "31")) None [lit "4"];
      mkSegment (lit " wo") None None [lit "4"];
      mkSegment (lit "rld") None None [] ].
Proof. reflexivity. Qed.

(** ** Strings and slices *)

Lemma len_nonneg {A} (l : list A) : 0 <= len l.
Proof. unfold len. lia. Qed.

Lemma len_app {A} (a b : list A) : len (a ++ b) = len a + len b.
Proof. unfold len. rewrite length_app. lia. Qed.

Lemma len_nil_iff {A} (l : list A) : len l = 0 <-> l = [].
Proof.
  unfold len. destruct l; simpl; split; intros H; try reflexivity;
    try discriminate; lia.
Qed.

Lemma truthy_len (t : jsstring) : truthy t = (len t >? 0).
Proof. destruct t; unfold len; simpl; [reflexivity|]. symmetry. apply Z.gtb_lt. lia. Qed.

Lemma truthy_false_nil (t : jsstring) : truthy t = false -> t = [].
Proof. destruct t; [reflexivity | discriminate]. Qed.

Lemma truthy_true_cons (t : jsstring) : truthy t = true -> t <> [].
Proof. destruct t; [discriminate | intros _ H; discriminate]. Qed.

(** Inside the string, [slice] is "drop [a], then take [b - a]". *)
Lemma slice_inside (t : jsstring) (a b : Z) :
  0 <= a -> 0 <= b <= len t ->
  slice t a (Some b) = firstn (Z.to_nat (b - a)) (skipn (Z.to_nat a) t).
Proof.
  intros Ha Hb. unfold slice, relIndex.
  destruct (a <? 0) eqn:Ea; [apply Z.ltb_lt in Ea; lia|].
  destruct (b <? 0) eqn:Eb; [apply Z.ltb_lt in Eb; lia|].
  rewrite (Z.min_l b) by lia.
  destruct (Z.le_gt_cases a (len t)) as [Hle|Hgt].
  - rewrite Z.min_l by lia. reflexivity.
  - rewrite Z.min_r by lia.
    replace (Z.to_nat (b - len t)) with 0%nat by lia.
    replace (Z.to_nat (b - a)) with 0%nat by lia. reflexivity.
Qed.

Lemma slice_from (t : jsstring) (a : Z) :
  0 <= a -> slice t a None = skipn (Z.to_nat a) t.
Proof.
  intros Ha. unfold slice, relIndex.
  destruct (a <? 0) eqn:Ea; [apply Z.ltb_lt in Ea; lia|].
  destruct (Z.le_gt_cases a (len t)) as [Hle|Hgt].
  - rewrite Z.min_l by lia. apply firstn_all2.
    rewrite length_skipn. unfold len in *. lia.
  - rewrite Z.min_r by lia. rewrite firstn_all2.
    + rewrite !skipn_all2; [reflexivity | unfold len in *; lia | unfold len; lia].
    + rewrite length_skipn. unfold len in *. lia.
Qed.

Lemma slice_whole (t : jsstring) : slice t 0 (Some (len t)) = t.
Proof.
  rewrite slice_inside by (pose proof (len_nonneg t); lia).
  simpl. apply firstn_all2. unfold len. lia.
Qed.

Lemma slice_empty (t : jsstring) (a : Z) :
  0 <= a <= len t -> slice t a (Some a) = [].
Proof.
  intros H. rewrite slice_inside by lia.
  replace (Z.to_nat (a - a)) with 0%nat by lia. reflexivity.
Qed.

Lemma slice_from_end (t : jsstring) : slice t (len t) None = [].
Proof.
  rewrite slice_from by apply len_nonneg.
  apply skipn_all2. unfold len. lia.
Qed.

Lemma len_slice (t : jsstring) (a b : Z) :
  0 <= a <= b -> b <= len t -> len (slice t a (Some b)) = b - a.
Proof.
  intros Ha Hb. rewrite slice_inside by lia.
  unfold len in *. rewrite length_firstn, length_skipn. lia.
Qed.

Lemma len_slice_from (t : jsstring) (a : Z) :
  0 <= a <= len t -> len (slice t a None) = len t - a.
Proof.
  intros Ha. rewrite slice_from by lia.
  unfold len in *. rewrite length_skipn. lia.
Qed.

Lemma len_skipn {A} (t : list A) (a : Z) :
  0 <= a <= len t -> len (skipn (Z.to_nat a) t) = len t - a.
Proof. intros H. unfold len in *. rewrite length_skipn. lia. Qed.

(** A string is its prefix up to [a], its middle from [a] to [b] and
    its suffix from [b]. *)
Lemma slice_three (t : jsstring) (a b : Z) :
  0 <= a <= b -> b <= len t ->
  t = slice t 0 (Some a) ++ slice t a (Some b) ++ slice t b None.
Proof.
  intros Ha Hb.
  rewrite (slice_inside t 0 a), (slice_inside t a b), (slice_from t b) by lia.
  simpl. rewrite Z.sub_0_r.
  rewrite <- (firstn_skipn (Z.to_nat a) t) at 1. f_equal.
  rewrite <- (firstn_skipn (Z.to_nat (b - a)) (skipn (Z.to_nat a) t)) at 1.
  f_equal. rewrite skipn_skipn. f_equal. lia.
Qed.

(** ** Restyling one segment *)

Lemma totalLength_from (segs : list TextSegment) (z : Z) :
  fold_left (fun sum seg => sum + len (text seg)) segs z
  = z + totalLength segs.
Proof.
  unfold totalLength. revert z.
  induction segs as [|seg rest IH]; intros z; simpl; [lia|].
  rewrite IH, (IH (len (text seg))). lia.
Qed.

#[local] Arguments totalLength : simpl never.

Lemma totalLength_nil : totalLength [] = 0.
Proof. reflexivity. Qed.

Lemma totalLength_cons (seg : TextSegment) (rest : list TextSegment) :
  totalLength (seg :: rest) = len (text seg) + totalLength rest.
Proof. unfold totalLength at 1. cbn [fold_left]. apply totalLength_from. Qed.

Lemma totalLength_app (a b : list TextSegment) :
  totalLength (a ++ b) = totalLength a + totalLength b.
Proof.
  induction a as [|seg rest IH]; cbn [app].
  - rewrite totalLength_nil. lia.
  - rewrite !totalLength_cons, IH. lia.
Qed.

Lemma totalLength_nonneg (segs : list TextSegment) : 0 <= totalLength segs.
Proof.
  induction segs as [|seg rest IH].
  - rewrite totalLength_nil. lia.
  - rewrite totalLength_cons. pose proof (len_nonneg (text seg)). lia.
Qed.

#[local] Ltac zbool :=
  repeat match goal with
  | H : (_ <=? _) = true |- _ => apply Z.leb_le in H
  | H : (_ <=? _) = false |- _ => apply Z.leb_gt in H
  | H : (_ <? _) = true |- _ => apply Z.ltb_lt in H
  | H : (_ <? _) = false |- _ => apply Z.ltb_ge in H
  | H : (_ >=? _) = _ |- _ => rewrite Z.geb_leb in H
  | H : (_ >? _) = _ |- _ => rewrite Z.gtb_ltb in H
  | H : (_ =? _) = true |- _ => apply Z.eqb_eq in H
  | H : (_ =? _) = false |- _ => apply Z.eqb_neq in H
  | H : (_ || _) = true |- _ => apply orb_true_iff in H
  | H : (_ || _) = false |- _ => apply orb_false_iff in H; destruct H
  | H : (_ && _) = true |- _ => apply andb_true_iff in H; destruct H
  | H : (_ && _) = false |- _ => apply andb_false_iff in H
  end.

Section RestyleSegment.

Variable st : AppState.
Variables selStart selEnd : Z.
Hypothesis nonZeroWidth : selStart < selEnd.

#[local] Abbreviation pieces currentPos segment :=
  (restyleSegment st selStart selEnd currentPos segment []).

Lemma restyleSegment_acc currentPos segment newSegments :
  restyleSegment st selStart selEnd currentPos segment newSegments
  = newSegments ++ pieces currentPos segment.
Proof.
  unfold restyleSegment.
  destruct ((currentPos + len (text segment) <=? selStart)
            || (currentPos >=? selEnd)); [reflexivity|].
  destruct (currentPos <? selStart), (truthy _),
    (currentPos + len (text segment) >? selEnd); simpl;
    rewrite <- ?app_assoc, ?app_nil_r; reflexivity.
Qed.

Lemma pieces_outside currentPos segment :
  currentPos + len (text segment) <= selStart \/ selEnd <= currentPos ->
  pieces currentPos segment = [segment].
Proof.
  intros H. unfold restyleSegment.
  destruct ((currentPos + len (text segment) <=? selStart)
            || (currentPos >=? selEnd)) eqn:E; [reflexivity|].
  zbool. lia.
Qed.

Lemma pieces_empty_inside currentPos segment :
  text segment = [] -> selStart < currentPos < selEnd ->
  pieces currentPos segment = [].
Proof.
  intros Ht H. unfold restyleSegment. rewrite Ht.
  change (len (@nil N)) with 0. rewrite Z.add_0_r.
  destruct ((currentPos <=? selStart) || (currentPos >=? selEnd)) eqn:E.
  { zbool. lia. }
  destruct (currentPos <? selStart) eqn:E1; [zbool; lia|].
  destruct (currentPos >? selEnd) eqn:E2; [zbool; lia|].
  unfold slice. rewrite skipn_nil, firstn_nil. reflexivity.
Qed.

Lemma pieces_overlap currentPos segment :
  0 < len (text segment) ->
  currentPos < selEnd -> selStart < currentPos + len (text segment) ->
  pieces currentPos segment
  = (if currentPos <? selStart
     then [withText segment
             (slice (text segment) 0 (Some (selStart - currentPos)))]
     else [])
    ++ [restyled st segment
          (slice (text segment) (Z.max 0 (selStart - currentPos))
             (Some (Z.min (len (text segment)) (selEnd - currentPos))))]
    ++ (if currentPos + len (text segment) >? selEnd
        then [withText segment
                (slice (text segment) (selEnd - currentPos) None)]
        else []).
Proof.
  intros H0 H1 H2. unfold restyleSegment.
  destruct ((currentPos + len (text segment) <=? selStart)
            || (currentPos >=? selEnd)) eqn:E.
  { zbool. lia. }
  replace (truthy (slice (text segment) (Z.max 0 (selStart - currentPos))
             (Some (Z.min (len (text segment)) (selEnd - currentPos)))))
    with true.
  - destruct (currentPos <? selStart),
      (currentPos + len (text segment) >? selEnd); simpl;
      rewrite <- ?app_assoc; reflexivity.
  - symmetry. rewrite truthy_len. apply Z.gtb_lt.
    pose proof (len_nonneg (text segment)). zbool.
    rewrite len_slice; lia.
Qed.

End RestyleSegment.

(** ** Restyling a Document, segment by segment and character by character *)

Lemma len_map {A B} (f : A -> B) (l : list A) : len (map f l) = len l.
Proof. unfold len. rewrite length_map. reflexivity. Qed.

Lemma len_charsOf (seg : TextSegment) : len (charsOf seg) = len (text seg).
Proof. apply len_map. Qed.

Lemma styledChars_app (a b : list TextSegment) :
  styledChars (a ++ b) = styledChars a ++ styledChars b.
Proof. apply flat_map_app. Qed.

Lemma styledChars_one (seg : TextSegment) : styledChars [seg] = charsOf seg.
Proof. unfold styledChars. simpl. apply app_nil_r. Qed.

Lemma len_styledChars (segs : list TextSegment) :
  len (styledChars segs) = totalLength segs.
Proof.
  induction segs as [|seg rest IH].
  - reflexivity.
  - change (styledChars (seg :: rest)) with (charsOf seg ++ styledChars rest).
    rewrite len_app, len_charsOf, totalLength_cons, IH. reflexivity.
Qed.

Section RestyleLoop.

Variable st : AppState.
Variables selStart selEnd : Z.
Hypothesis nonZeroWidth : selStart < selEnd.

#[local] Abbreviation pieces currentPos segment :=
  (restyleSegment st selStart selEnd currentPos segment []).
#[local] Abbreviation loop := (restyleLoop st selStart selEnd).
#[local] Abbreviation rechars := (restyleChars st selStart selEnd).

Lemma restyleLoop_acc segs currentPos newSegments :
  loop segs currentPos newSegments = newSegments ++ loop segs currentPos [].
Proof.
  revert currentPos newSegments.
  induction segs as [|seg rest IH]; intros currentPos newSegments; simpl.
  - symmetry. apply app_nil_r.
  - rewrite IH. rewrite (IH _ (restyleSegment _ _ _ _ _ [])).
    rewrite restyleSegment_acc, app_assoc. reflexivity.
Qed.

Lemma restyleLoop_cons seg rest currentPos :
  loop (seg :: rest) currentPos []
  = pieces currentPos seg ++ loop rest (currentPos + len (text seg)) [].
Proof. simpl. apply restyleLoop_acc. Qed.

Lemma restyleLoop_app a b currentPos :
  loop (a ++ b) currentPos []
  = loop a currentPos [] ++ loop b (currentPos + totalLength a) [].
Proof.
  revert currentPos. induction a as [|seg rest IH]; intros currentPos.
  - rewrite totalLength_nil, Z.add_0_r. reflexivity.
  - change ((seg :: rest) ++ b) with (seg :: (rest ++ b)).
    rewrite !restyleLoop_cons, IH, totalLength_cons, <- app_assoc.
    do 3 f_equal. lia.
Qed.

Lemma restyleChars_app p a b :
  rechars p (a ++ b) = rechars p a ++ rechars (p + len a) b.
Proof.
  revert p.
  induction a as [|[c x] rest IH]; intros p.
  - change (len (@nil (N * Attrs))) with 0. rewrite Z.add_0_r. reflexivity.
  - replace (p + len ((c, x) :: rest)) with (p + 1 + len rest)
      by (unfold len; cbn [List.length]; lia).
    simpl. rewrite IH. reflexivity.
Qed.

Lemma restyleChars_outside p cs :
  p + len cs <= selStart \/ selEnd <= p -> rechars p cs = cs.
Proof.
  revert p.
  induction cs as [|[c x] rest IH]; intros p H; simpl; [reflexivity|].
  assert (Hl : len ((c, x) :: rest) = 1 + len rest)
    by (unfold len; cbn [List.length]; lia).
  pose proof (len_nonneg rest).
  rewrite IH by lia.
  destruct ((selStart <=? p) && (p <? selEnd)) eqn:E; [|reflexivity].
  zbool. lia.
Qed.

Lemma restyleChars_inside p cs :
  selStart <= p -> p + len cs <= selEnd ->
  rechars p cs = map (fun ca => (fst ca, mergeAttrs st (snd ca))) cs.
Proof.
  revert p.
  induction cs as [|[c x] rest IH]; intros p H1 H2; simpl; [reflexivity|].
  assert (Hl : len ((c, x) :: rest) = 1 + len rest)
    by (unfold len; cbn [List.length]; lia).
  pose proof (len_nonneg rest).
  rewrite IH by lia.
  destruct ((selStart <=? p) && (p <? selEnd)) eqn:E; [reflexivity|].
  zbool. lia.
Qed.

Lemma len_restyleChars p cs : len (rechars p cs) = len cs.
Proof.
  unfold len. revert p.
  induction cs as [|[c x] rest IH]; intros p; simpl; [reflexivity|].
  specialize (IH (p + 1)). lia.
Qed.

Lemma charsOf_withText seg t :
  charsOf (withText seg t) = map (fun c => (c, attrsOf seg)) t.
Proof. reflexivity. Qed.

Lemma charsOf_restyled seg t :
  charsOf (restyled st seg t)
  = map (fun ca => (fst ca, mergeAttrs st (snd ca)))
      (map (fun c => (c, attrsOf seg)) t).
Proof. unfold charsOf. rewrite map_map. reflexivity. Qed.

(** One iteration of the loop restyles exactly the characters of the
    segment that stand inside the selection. *)
Lemma pieces_chars currentPos seg :
  styledChars (pieces currentPos seg) = rechars currentPos (charsOf seg).
Proof.
  pose proof (len_nonneg (text seg)) as Hn.
  destruct (Z.eq_dec (len (text seg)) 0) as [Hz|Hz].
  { apply len_nil_iff in Hz. unfold charsOf. rewrite Hz. simpl.
    destruct (Z_lt_le_dec selStart currentPos) as [Hs|Hs];
      [destruct (Z_lt_le_dec currentPos selEnd) as [He|He]|].
    - rewrite pieces_empty_inside by (auto; lia). reflexivity.
    - rewrite pieces_outside by (auto; lia).
      rewrite styledChars_one. unfold charsOf. rewrite Hz. reflexivity.
    - rewrite pieces_outside
        by (auto; rewrite Hz; unfold len; simpl; lia).
      rewrite styledChars_one. unfold charsOf. rewrite Hz. reflexivity. }
  destruct (Z_le_gt_dec (currentPos + len (text seg)) selStart) as [Ho|Ho].
  { rewrite pieces_outside by (auto; lia).
    rewrite styledChars_one. symmetry. apply restyleChars_outside.
    rewrite len_charsOf. lia. }
  destruct (Z_le_gt_dec selEnd currentPos) as [Ho'|Ho'].
  { rewrite pieces_outside by (auto; lia).
    rewrite styledChars_one. symmetry. apply restyleChars_outside. lia. }
  rewrite pieces_overlap by (auto; lia).
  set (a := Z.max 0 (selStart - currentPos)).
  set (b := Z.min (len (text seg)) (selEnd - currentPos)).
  assert (Hab : 0 <= a <= b /\ b <= len (text seg)) by (unfold a, b; lia).
  replace (charsOf seg)
    with (map (fun c => (c, attrsOf seg))
            (slice (text seg) 0 (Some a) ++ slice (text seg) a (Some b)
               ++ slice (text seg) b None))
    by (unfold charsOf; rewrite <- slice_three by lia; reflexivity).
  rewrite !map_app, !restyleChars_app, !len_map.
  rewrite !len_slice by lia.
  rewrite !styledChars_app, styledChars_one. f_equal; [|f_equal].
  - destruct (currentPos <? selStart) eqn:E; zbool.
    + rewrite styledChars_one, charsOf_withText.
      replace (selStart - currentPos) with a by (unfold a; lia).
      symmetry. apply restyleChars_outside. rewrite len_map, len_slice by lia.
      unfold a. lia.
    + replace a with 0 by (unfold a; lia).
      rewrite slice_empty by lia. reflexivity.
  - rewrite charsOf_restyled. symmetry. apply restyleChars_inside.
    + unfold a. lia.
    + rewrite len_map, len_slice by lia. unfold b. lia.
  - destruct (currentPos + len (text seg) >? selEnd) eqn:E; zbool.
    + rewrite styledChars_one, charsOf_withText.
      replace (selEnd - currentPos) with b by (unfold b; lia).
      symmetry. apply restyleChars_outside. unfold a, b. lia.
    + replace b with (len (text seg)) by (unfold b; lia).
      rewrite slice_from_end. reflexivity.
Qed.

Lemma restyleLoop_chars segs currentPos :
  styledChars (loop segs currentPos [])
  = rechars currentPos (styledChars segs).
Proof.
  revert currentPos. induction segs as [|seg rest IH]; intros currentPos.
  - reflexivity.
  - rewrite restyleLoop_cons, styledChars_app, pieces_chars, IH.
    change (styledChars (seg :: rest)) with (charsOf seg ++ styledChars rest).
    rewrite restyleChars_app, len_charsOf. reflexivity.
Qed.

(** Restyling conserves the total length. *)
Lemma restyleLoop_totalLength segs currentPos :
  totalLength (loop segs currentPos []) = totalLength segs.
Proof.
  rewrite <- !len_styledChars, restyleLoop_chars. apply len_restyleChars.
Qed.

Lemma nth_error_restyleChars p cs n :
  nth_error (rechars p cs) n
  = option_map
      (fun ca =>
         (fst ca,
          if (selStart <=? p + Z.of_nat n) && (p + Z.of_nat n <? selEnd)
          then mergeAttrs st (snd ca) else snd ca))
      (nth_error cs n).
Proof.
  revert p n.
  induction cs as [|[c x] rest IH]; intros p n.
  - destruct n; reflexivity.
  - destruct n as [|n]; simpl.
    + rewrite Z.add_0_r. reflexivity.
    + rewrite IH. replace (p + 1 + Z.of_nat n) with (p + Z.pos (Pos.of_succ_nat n))
        by lia.
      reflexivity.
Qed.

Lemma or_idempotent a b : JS.or a (JS.or a b) = JS.or a b.
Proof. unfold JS.or. destruct (truthyOpt a); reflexivity. Qed.

Lemma restyled_restyled seg t t' :
  restyled st (restyled st seg t) t' = restyled st seg t'.
Proof.
  unfold restyled. simpl. rewrite !or_idempotent.
  destruct (len (selectedStyles st) >? 0); reflexivity.
Qed.

Lemma loop_one seg currentPos :
  loop [seg] currentPos [] = pieces currentPos seg.
Proof. rewrite restyleLoop_cons. apply app_nil_r. Qed.

Lemma pieces_totalLength currentPos seg :
  totalLength (pieces currentPos seg) = len (text seg).
Proof.
  rewrite <- loop_one, restyleLoop_totalLength, totalLength_cons,
    totalLength_nil.
  lia.
Qed.

(** The pieces a segment was cut into are left as they are by a second
    pass with the same selection and the same choices. *)
Lemma loop_pieces currentPos seg :
  loop (pieces currentPos seg) currentPos [] = pieces currentPos seg.
Proof.
  pose proof (len_nonneg (text seg)) as Hn.
  assert (Hout : currentPos + len (text seg) <= selStart
                 \/ selEnd <= currentPos ->
                 loop (pieces currentPos seg) currentPos []
                 = pieces currentPos seg).
  { intros H. rewrite pieces_outside by auto.
    rewrite loop_one. apply pieces_outside; auto. }
  destruct (Z.eq_dec (len (text seg)) 0) as [Hz|Hz].
  { destruct (Z_lt_le_dec selStart currentPos) as [Hs|Hs];
      [destruct (Z_lt_le_dec currentPos selEnd) as [He|He]|];
      try (apply Hout; lia).
    apply len_nil_iff in Hz.
    rewrite pieces_empty_inside by (auto; lia). reflexivity. }
  destruct (Z_le_gt_dec (currentPos + len (text seg)) selStart) as [Ho|Ho];
    [apply Hout; lia|].
  destruct (Z_le_gt_dec selEnd currentPos) as [Ho'|Ho']; [apply Hout; lia|].
  clear Hout. rewrite pieces_overlap by (auto; lia).
  set (a := Z.max 0 (selStart - currentPos)).
  set (b := Z.min (len (text seg)) (selEnd - currentPos)).
  assert (Hab : 0 <= a < b /\ b <= len (text seg)) by (unfold a, b; lia).
  set (pre := if currentPos <? selStart then _ else _).
  set (suf := if currentPos + len (text seg) >? selEnd then _ else _).
  set (mid := restyled st seg (slice (text seg) a (Some b))).
  assert (Hmid : len (text mid) = b - a)
    by (unfold mid; simpl; apply len_slice; lia).
  assert (Hpre : totalLength pre = a /\ loop pre currentPos [] = pre).
  { unfold pre. destruct (currentPos <? selStart) eqn:E; zbool.
    - assert (Hl : len (slice (text seg) 0 (Some (selStart - currentPos)))
                   = selStart - currentPos) by (rewrite len_slice; lia).
      split.
      + rewrite totalLength_cons, totalLength_nil. simpl text. unfold a. lia.
      + rewrite loop_one. apply pieces_outside; auto.
        simpl text. lia.
    - split; [rewrite totalLength_nil; unfold a; lia | reflexivity]. }
  destruct Hpre as [Hpre1 Hpre2].
  assert (Hsuf : loop suf (currentPos + b) [] = suf).
  { unfold suf. destruct (currentPos + len (text seg) >? selEnd) eqn:E; zbool.
    - rewrite loop_one. apply pieces_outside; auto.
      right. unfold b. lia.
    - reflexivity. }
  assert (Hm : loop [mid] (currentPos + a) [] = [mid]).
  { rewrite loop_one. rewrite pieces_overlap by (auto; lia).
    destruct (currentPos + a <? selStart) eqn:E1; [zbool; unfold a in *; lia|].
    destruct (currentPos + a + len (text mid) >? selEnd) eqn:E2;
      [zbool; unfold b in *; lia|].
    replace (Z.max 0 (selStart - (currentPos + a))) with 0 by (unfold a; lia).
    replace (Z.min (len (text mid)) (selEnd - (currentPos + a)))
      with (len (text mid)) by (unfold b in *; lia).
    rewrite slice_whole. simpl. unfold mid. rewrite restyled_restyled.
    reflexivity. }
  rewrite restyleLoop_app, Hpre1, Hpre2. f_equal.
  change (mid :: suf) with ([mid] ++ suf).
  rewrite restyleLoop_app, Hm. f_equal.
  rewrite totalLength_cons, totalLength_nil, Hmid.
  replace (currentPos + a + (b - a + 0)) with (currentPos + b) by lia.
  exact Hsuf.
Qed.

(** A second pass over a restyled Document changes nothing. *)
Lemma restyleLoop_idempotent segs currentPos :
  loop (loop segs currentPos []) currentPos [] = loop segs currentPos [].
Proof.
  revert currentPos. induction segs as [|seg rest IH]; intros currentPos.
  - reflexivity.
  - rewrite restyleLoop_cons, restyleLoop_app, loop_pieces,
      pieces_totalLength, IH.
    reflexivity.
Qed.

End RestyleLoop.

(** The loop reads the user's three choices from the state, nothing else. *)
Lemma restyleLoop_ext st st' selStart selEnd segs currentPos newSegments :
  selectedForeground st = selectedForeground st' ->
  selectedBackground st = selectedBackground st' ->
  selectedStyles st = selectedStyles st' ->
  restyleLoop st selStart selEnd segs currentPos newSegments
  = restyleLoop st' selStart selEnd segs currentPos newSegments.
Proof.
  intros Hf Hb Hs. revert currentPos newSegments.
  induction segs as [|seg rest IH]; intros currentPos newSegments; simpl.
  - reflexivity.
  - rewrite IH. f_equal. unfold restyleSegment, restyled.
    rewrite Hf, Hb, Hs. reflexivity.
Qed.

(** ** Reconciling the Document with an edited text *)

Lemma nothingStyledYet_fresh (segs : list TextSegment) :
  nothingStyledYet segs = true <-> freshDocument segs.
Proof.
  unfold freshDocument, nothingStyledYet.
  destruct segs as [|seg0 [|seg1 rest]].
  - split; auto.
  - assert (He : negb (truthyOpt (foreground seg0))
                 && negb (truthyOpt (background seg0))
                 && (len (styles seg0) =? 0) = negb (hasStyle seg0)).
    { unfold hasStyle. rewrite !negb_orb. f_equal.
      pose proof (len_nonneg (styles seg0)).
      destruct (len (styles seg0) =? 0) eqn:E1,
        (len (styles seg0) >? 0) eqn:E2; zbool; try reflexivity; lia. }
    rewrite He, negb_true_iff. split.
    + intros H. right. exists seg0. auto.
    + intros [H|[seg [H1 H2]]]; [discriminate|].
      injection H1 as <-. exact H2.
  - split; [discriminate|].
    intros [H|[seg [H _]]]; discriminate.
Qed.

Lemma shrinkLoop_acc segs remaining updatedSegments :
  shrinkLoop segs remaining updatedSegments
  = updatedSegments ++ shrinkLoop segs remaining [].
Proof.
  revert remaining updatedSegments.
  induction segs as [|seg rest IH]; intros remaining updatedSegments; simpl.
  - symmetry. apply app_nil_r.
  - destruct (remaining <=? 0); [symmetry; apply app_nil_r|].
    destruct (remaining >=? len (text seg)).
    + rewrite IH, (IH _ [seg]), app_assoc. reflexivity.
    + rewrite IH, (IH _ [withText _ _]), app_assoc. reflexivity.
Qed.

(** The shrink loop keeps exactly [remaining] characters. *)
Lemma shrinkLoop_totalLength segs remaining :
  0 <= remaining <= totalLength segs ->
  totalLength (shrinkLoop segs remaining []) = remaining.
Proof.
  revert remaining. induction segs as [|seg rest IH]; intros remaining H.
  - rewrite totalLength_nil in H. simpl. rewrite totalLength_nil. lia.
  - rewrite totalLength_cons in H. simpl.
    pose proof (len_nonneg (text seg)).
    destruct (remaining <=? 0) eqn:E0; zbool.
    { rewrite totalLength_nil. lia. }
    destruct (remaining >=? len (text seg)) eqn:E1; zbool;
      rewrite shrinkLoop_acc, totalLength_app, totalLength_cons,
        totalLength_nil.
    + rewrite IH by lia. lia.
    + destruct rest as [|seg' rest']; simpl; rewrite totalLength_nil;
        rewrite len_slice by lia; lia.
Qed.

(** The shrink loop never leaves an empty segment behind. *)
Lemma shrinkLoop_noEmpty segs remaining :
  noEmptySegment segs -> noEmptySegment (shrinkLoop segs remaining []).
Proof.
  unfold noEmptySegment. revert remaining.
  induction segs as [|seg rest IH]; intros remaining H; simpl.
  - constructor.
  - inversion H as [|? ? Hseg Hrest]; subst.
    destruct (remaining <=? 0) eqn:E0; [constructor|]. zbool.
    destruct (remaining >=? len (text seg)) eqn:E1; zbool;
      rewrite shrinkLoop_acc; apply Forall_app; split; auto.
    constructor; [|constructor]. simpl. intros Hnil.
    apply len_nil_iff in Hnil. rewrite len_slice in Hnil; lia.
Qed.

Lemma nth_error_last {A} (front : list A) (l : A) :
  nth_error (front ++ [l]) (List.length (front ++ [l]) - 1) = Some l.
Proof.
  rewrite length_app. simpl.
  replace (List.length front + 1 - 1)%nat with (List.length front) by lia.
  rewrite nth_error_app2 by lia. rewrite Nat.sub_diag. reflexivity.
Qed.

Lemma assign_last {A} (front : list A) (l v : A) :
  assign (front ++ [l]) (List.length (front ++ [l]) - 1) v = front ++ [v].
Proof.
  rewrite length_app. simpl.
  replace (List.length front + 1 - 1)%nat with (List.length front) by lia.
  induction front as [|x rest IH]; simpl; [reflexivity|].
  rewrite IH. reflexivity.
Qed.

(** What [handleTextChange] leaves in [segments], branch by branch. *)
Lemma handleTextChange_fresh newText st :
  nothingStyledYet (segments st) = true ->
  segments (handleTextChange newText st) = [plain newText].
Proof. intros H. unfold handleTextChange. rewrite H. reflexivity. Qed.

Lemma handleTextChange_grow newText st front lastSegment :
  nothingStyledYet (segments st) = false ->
  len newText - totalLength (segments st) > 0 ->
  segments st = front ++ [lastSegment] ->
  segments (handleTextChange newText st)
  = front ++ [withText lastSegment
                (text lastSegment
                   ++ skipn (Z.to_nat (totalLength (segments st))) newText)].
Proof.
  intros Hf Hd Hs. unfold handleTextChange. rewrite Hf.
  replace (len newText - totalLength (segments st) >? 0) with true
    by (symmetry; apply Z.gtb_lt; lia).
  rewrite slice_from by apply totalLength_nonneg.
  generalize (totalLength (segments st)). intros total.
  rewrite Hs, nth_error_last, assign_last. reflexivity.
Qed.

Lemma handleTextChange_shrink newText st :
  nothingStyledYet (segments st) = false ->
  len newText - totalLength (segments st) < 0 ->
  segments (handleTextChange newText st)
  = shrinkLoop (segments st) (len newText) [].
Proof.
  intros Hf Hd. unfold handleTextChange. rewrite Hf.
  replace (len newText - totalLength (segments st) >? 0) with false
    by (symmetry; rewrite Z.gtb_ltb; apply Z.ltb_ge; lia).
  replace (len newText - totalLength (segments st) <? 0) with true
    by (symmetry; apply Z.ltb_lt; lia).
  reflexivity.
Qed.

Lemma handleTextChange_same_length newText st :
  nothingStyledYet (segments st) = false ->
  len newText - totalLength (segments st) = 0 ->
  segments (handleTextChange newText st) = segments st.
Proof.
  intros Hf Hd. unfold handleTextChange. rewrite Hf, Hd. reflexivity.
Qed.

Lemma handleTextChange_inputText newText st :
  inputText (handleTextChange newText st) = newText.
Proof.
  unfold handleTextChange.
  destruct (nothingStyledYet (segments st)); [reflexivity|].
  destruct (_ >? 0); [destruct (nth_error _ _); reflexivity|].
  destruct (_ <? 0); reflexivity.
Qed.

Lemma handleTextChange_selection newText st :
  selectionStart (handleTextChange newText st) = selectionStart st
  /\ selectionEnd (handleTextChange newText st) = selectionEnd st.
Proof.
  unfold handleTextChange.
  destruct (nothingStyledYet (segments st)); [split; reflexivity|].
  destruct (_ >? 0); [destruct (nth_error _ _); split; reflexivity|].
  destruct (_ <? 0); split; reflexivity.
Qed.

(** Reconciliation establishes I1 whatever the state it starts from. *)
Lemma handleTextChange_length newText st :
  lengthInvariant (handleTextChange newText st).
Proof.
  unfold lengthInvariant. rewrite handleTextChange_inputText.
  destruct (nothingStyledYet (segments st)) eqn:Hf.
  { rewrite handleTextChange_fresh by assumption.
    rewrite totalLength_cons, totalLength_nil. simpl. lia. }
  pose proof (totalLength_nonneg (segments st)) as Hn.
  destruct (Z.lt_trichotomy (len newText - totalLength (segments st)) 0)
    as [Hd|[Hd|Hd]].
  - rewrite handleTextChange_shrink by assumption.
    apply shrinkLoop_totalLength. pose proof (len_nonneg newText). lia.
  - rewrite handleTextChange_same_length by assumption. lia.
  - destruct (exists_last (l := segments st)) as [front [l Hs]].
    { intros Hnil. rewrite Hnil in Hf. discriminate. }
    rewrite (handleTextChange_grow _ _ front l) by (auto; lia).
    rewrite Hs in *. rewrite !totalLength_app in *.
    rewrite !totalLength_cons, !totalLength_nil in *. simpl text.
    rewrite len_app, len_skipn by (pose proof (len_nonneg (text l)); lia).
    lia.
Qed.

Lemma handleTextChange_noEmpty newText st :
  noEmptySegment (segments st) \/ emptyBox st ->
  noEmptySegment (segments (handleTextChange newText st))
  \/ emptyBox (handleTextChange newText st).
Proof.
  intros H. unfold emptyBox. rewrite handleTextChange_inputText.
  destruct (nothingStyledYet (segments st)) eqn:Hf.
  { rewrite handleTextChange_fresh by assumption.
    destruct newText as [|c rest]; [right; auto|].
    left. constructor; [discriminate | constructor]. }
  destruct H as [H|[_ H]]; [|rewrite H in Hf; discriminate].
  left. destruct (Z.lt_trichotomy (len newText - totalLength (segments st)) 0)
    as [Hd|[Hd|Hd]].
  - rewrite handleTextChange_shrink by assumption.
    apply shrinkLoop_noEmpty. assumption.
  - rewrite handleTextChange_same_length; assumption.
  - destruct (exists_last (l := segments st)) as [front [l Hs]].
    { intros Hnil. rewrite Hnil in Hf. discriminate. }
    rewrite (handleTextChange_grow _ _ front l) by (auto; lia).
    unfold noEmptySegment in *. rewrite Hs in H.
    apply Forall_app in H. destruct H as [H1 H2].
    apply Forall_app. split; [assumption|].
    inversion H2 as [|? ? Hl _]; subst.
    constructor; [|constructor]. simpl.
    destruct (text l); [contradiction | discriminate].
Qed.

(** ** Restyling never leaves an empty segment behind *)

Section RestyleNoEmpty.

Variable st : AppState.
Variables selStart selEnd : Z.
Hypothesis nonZeroWidth : selStart < selEnd.

Lemma pieces_noEmpty currentPos seg :
  text seg <> [] ->
  noEmptySegment (restyleSegment st selStart selEnd currentPos seg []).
Proof.
  intros Hne. pose proof (len_nonneg (text seg)) as Hn.
  assert (Hpos : 0 < len (text seg)).
  { destruct (Z.eq_dec (len (text seg)) 0) as [Hz|Hz]; [|lia].
    apply len_nil_iff in Hz. contradiction. }
  assert (Hnz : forall t : jsstring, 0 < len t -> t <> []).
  { intros t Ht E. rewrite E in Ht. unfold len in Ht. simpl in Ht. lia. }
  destruct (Z_le_gt_dec (currentPos + len (text seg)) selStart) as [Ho|Ho].
  { rewrite pieces_outside by (auto; lia). constructor; [exact Hne | constructor]. }
  destruct (Z_le_gt_dec selEnd currentPos) as [Ho'|Ho'].
  { rewrite pieces_outside by (auto; lia). constructor; [exact Hne | constructor]. }
  rewrite pieces_overlap by (auto; lia).
  apply Forall_app. split; [|apply Forall_app; split].
  - destruct (currentPos <? selStart) eqn:E; [|constructor]. zbool.
    constructor; [|constructor]. simpl. apply Hnz. rewrite len_slice; lia.
  - constructor; [|constructor]. simpl. apply Hnz. rewrite len_slice; lia.
  - destruct (currentPos + len (text seg) >? selEnd) eqn:E; [|constructor].
    zbool. constructor; [|constructor]. simpl. apply Hnz.
    rewrite len_slice_from; lia.
Qed.

Lemma restyleLoop_noEmpty segs currentPos :
  noEmptySegment segs ->
  noEmptySegment (restyleLoop st selStart selEnd segs currentPos []).
Proof.
  revert currentPos. induction segs as [|seg rest IH]; intros currentPos H.
  - constructor.
  - inversion H as [|? ? Hseg Hrest]; subst.
    rewrite restyleLoop_cons by assumption.
    apply Forall_app. split; [apply pieces_noEmpty | apply IH]; assumption.
Qed.

End RestyleNoEmpty.

(** ** Every reachable state satisfies the invariant *)

Lemma applyFormattingToSelection_unfold st s e :
  selectionStart st = Some s -> selectionEnd st = Some e -> s <> e ->
  applyFormattingToSelection st
  = setSelection None None
      (setSegments (restyleLoop st s e (segments st) 0 []) st).
Proof.
  intros Hs He Hne. unfold applyFormattingToSelection. rewrite Hs, He.
  destruct (s =? e) eqn:E; [zbool; contradiction | reflexivity].
Qed.

Lemma applyFormattingToSelection_cases st :
  applyFormattingToSelection st = st
  \/ exists s e, selectionStart st = Some s /\ selectionEnd st = Some e
                 /\ s <> e
                 /\ applyFormattingToSelection st
                    = setSelection None None
                        (setSegments
                           (restyleLoop st s e (segments st) 0 []) st).
Proof.
  unfold applyFormattingToSelection.
  destruct (selectionStart st) as [s|]; [|left; reflexivity].
  destruct (selectionEnd st) as [e|]; [|left; reflexivity].
  destruct (s =? e) eqn:E; [left; reflexivity|]. zbool.
  right. exists s, e. auto.
Qed.

Lemma initialState_invariant : reachableInvariant initialState.
Proof.
  repeat split; simpl; auto. left. constructor.
Qed.

Lemma handleTextChange_invariant newText st :
  reachableInvariant st -> reachableInvariant (handleTextChange newText st).
Proof.
  intros (_ & Hsel & Hne). split; [|split].
  - apply handleTextChange_length.
  - unfold selectionInvariant in *.
    destruct (handleTextChange_selection newText st) as [-> ->]. exact Hsel.
  - apply handleTextChange_noEmpty. exact Hne.
Qed.

Lemma handleTextSelect_invariant start end_ st :
  reachableInvariant st -> 0 <= start <= end_ ->
  reachableInvariant (handleTextSelect start end_ st).
Proof.
  intros (Hlen & _ & Hne) H. unfold handleTextSelect.
  destruct (start =? end_) eqn:E; simpl; zbool;
    (split; [exact Hlen | split; [|exact Hne]]);
    unfold selectionInvariant; simpl; auto; lia.
Qed.

Lemma applyFormattingToSelection_invariant st :
  reachableInvariant st -> reachableInvariant (applyFormattingToSelection st).
Proof.
  intros Hinv.
  destruct (applyFormattingToSelection_cases st)
    as [->|(s & e & Hs & He & Hne & ->)]; [exact Hinv|].
  destruct Hinv as (Hlen & Hsel & Hempty).
  unfold selectionInvariant in Hsel. rewrite Hs, He in Hsel.
  split; [|split].
  - unfold lengthInvariant in *. simpl.
    rewrite restyleLoop_totalLength by lia. exact Hlen.
  - exact I.
  - destruct Hempty as [Hall|[Ht Hbox]].
    + left. simpl. apply restyleLoop_noEmpty; [lia | exact Hall].
    + right. split; [exact Ht|]. simpl. rewrite Hbox.
      rewrite restyleLoop_cons by lia. simpl.
      rewrite pieces_outside; [reflexivity|]. left. simpl.
      unfold len. simpl. lia.
Qed.

Lemma clearAll_invariant st :
  reachableInvariant st -> reachableInvariant (clearAll st).
Proof.
  intros (_ & Hsel & _). split; [|split].
  - unfold lengthInvariant. simpl.
    rewrite totalLength_cons, totalLength_nil. simpl. lia.
  - exact Hsel.
  - unfold emptyBox. simpl. destruct (inputText st) as [|c rest].
    + right. auto.
    + left. constructor; [discriminate | constructor].
Qed.

Lemma syncEffect_invariant st :
  reachableInvariant st -> reachableInvariant (syncEffect st).
Proof.
  intros Hinv. unfold syncEffect.
  destruct ((len (segments st) =? 0) && truthy (inputText st)) eqn:E;
    [|exact Hinv].
  zbool. destruct Hinv as (_ & Hsel & _). split; [|split].
  - unfold lengthInvariant. simpl.
    rewrite totalLength_cons, totalLength_nil. simpl. lia.
  - exact Hsel.
  - left. simpl. constructor; [|constructor]. simpl.
    apply truthy_true_cons. assumption.
Qed.

Lemma step_invariant ev st :
  reachableInvariant st -> eventOk st ev = true ->
  reachableInvariant (step ev st).
Proof.
  intros Hinv Hok. unfold step. apply syncEffect_invariant.
  destruct ev; simpl in *.
  - apply handleTextChange_invariant. exact Hinv.
  - zbool. apply handleTextSelect_invariant; [exact Hinv | lia].
  - exact Hinv.
  - exact Hinv.
  - exact Hinv.
  - apply applyFormattingToSelection_invariant. exact Hinv.
  - apply clearAll_invariant. exact Hinv.
Qed.

Lemma run_invariant evs st :
  reachableInvariant st -> wellFormed evs st = true ->
  reachableInvariant (run evs st).
Proof.
  revert st. induction evs as [|ev rest IH]; intros st Hinv Hwf; simpl in *.
  - exact Hinv.
  - apply andb_true_iff in Hwf. destruct Hwf as [Hok Hrest].
    apply IH; [apply step_invariant|]; assumption.
Qed.

(** ** The encoder *)

Lemma segmentCodes_eq (seg : TextSegment) :
  segmentCodes seg
  = styles seg ++ attributeCode (foreground seg)
      ++ attributeCode (background seg).
Proof.
  unfold segmentCodes, attributeCode.
  assert (Hs : (if len (styles seg) >? 0 then [] ++ styles seg else [])
               = styles seg).
  { destruct (styles seg); reflexivity. }
  rewrite Hs.
  destruct (foreground seg) as [[|c fg]|], (background seg) as [[|d bg]|];
    simpl; rewrite <- ?app_assoc, ?app_nil_r; reflexivity.
Qed.

Lemma segmentCodes_hasStyle (seg : TextSegment) :
  (len (segmentCodes seg) >? 0) = hasStyle seg.
Proof.
  rewrite segmentCodes_eq. unfold hasStyle, attributeCode.
  rewrite !len_app.
  pose proof (len_nonneg (styles seg)).
  destruct (truthyOpt (foreground seg)) eqn:Ef,
    (truthyOpt (background seg)) eqn:Eb;
    destruct (foreground seg), (background seg); try discriminate;
    change (len (@nil jsstring)) with 0;
    change (len [?x]) with 1; simpl orb;
    try (apply Z.gtb_lt; unfold len in *; simpl; lia);
    rewrite ?Z.add_0_r; reflexivity.
Qed.

(** The loop appends the spans of the segments, in their order. *)
Lemma encodeLoop_spans (segs : list TextSegment) (result : jsstring) :
  encodeLoop segs result = result ++ List.concat (map span segs).
Proof.
  revert result. induction segs as [|seg rest IH]; intros result.
  - simpl. symmetry. apply app_nil_r.
  - cbn [encodeLoop map List.concat]. unfold span at 1.
    destruct (negb (truthy (text seg))); [apply IH|].
    rewrite segmentCodes_hasStyle, segmentCodes_eq.
    destruct (hasStyle seg); rewrite IH, <- !app_assoc; reflexivity.
Qed.

Lemma trimStart_nil_iff (t : jsstring) :
  trimStart t = [] <-> isBlank t = true.
Proof.
  unfold isBlank. induction t as [|c rest IH]; simpl.
  - split; reflexivity.
  - destruct (isWhiteSpace c); simpl; [exact IH|].
    split; discriminate.
Qed.

Lemma trimStart_keeps_ink (t : jsstring) :
  isBlank t = false -> isBlank (trimStart t) = false.
Proof.
  unfold isBlank. induction t as [|c rest IH]; simpl; [discriminate|].
  destruct (isWhiteSpace c) eqn:E; simpl; [exact IH|].
  intros _. rewrite E. reflexivity.
Qed.

Lemma isBlank_rev (t : jsstring) : isBlank (rev t) = isBlank t.
Proof.
  unfold isBlank. induction t as [|c rest IH]; simpl; [reflexivity|].
  rewrite forallb_app, IH. simpl. rewrite andb_true_r. apply andb_comm.
Qed.

(** [trim] leaves nothing exactly of a blank text. *)
Lemma trim_truthy (t : jsstring) : truthy (trim t) = negb (isBlank t).
Proof.
  unfold trim. destruct (isBlank t) eqn:E; simpl.
  - apply trimStart_nil_iff in E. rewrite E. reflexivity.
  - apply trimStart_keeps_ink in E. rewrite <- isBlank_rev in E.
    apply trimStart_keeps_ink in E. rewrite <- isBlank_rev in E.
    destruct (rev (trimStart (rev (trimStart t)))); [discriminate|reflexivity].
Qed.

Lemma generateColoredText_spans (st : AppState) :
  isBlank (inputText st) = false -> segments st <> [] ->
  generateColoredText st
  = fenceOpen ++ List.concat (map span (segments st)) ++ fenceClose.
Proof.
  intros Hb Hs. unfold generateColoredText.
  rewrite trim_truthy, Hb. simpl.
  destruct (segments st) as [|seg rest] eqn:E; [contradiction|].
  replace (len (seg :: rest) =? 0) with false.
  - rewrite encodeLoop_spans, <- app_assoc. reflexivity.
  - symmetry. apply Z.eqb_neq. unfold len. simpl. lia.
Qed.

Lemma generateColoredText_blank (st : AppState) :
  isBlank (inputText st) = true -> generateColoredText st = [].
Proof.
  intros Hb. unfold generateColoredText. rewrite trim_truthy, Hb. reflexivity.
Qed.

(** ** Properties of the specification *)

Lemma option_map_pair_id {A B} (x : option (A * B)) :
  option_map (fun ca => (fst ca, snd ca)) x = x.
Proof. destruct x as [[a b]|]; reflexivity. Qed.

(** The character at position [i] after a style application: the one
    that stood there, with its attributes merged when [i] is selected. *)
Lemma charAt_applyFormattingToSelection st s e i :
  selectionStart st = Some s -> selectionEnd st = Some e -> s < e ->
  charAt (segments (applyFormattingToSelection st)) i
  = option_map
      (fun ca =>
         (fst ca,
          if (s <=? i) && (i <? e) then mergeAttrs st (snd ca) else snd ca))
      (charAt (segments st) i).
Proof.
  intros Hs He Hlt.
  rewrite (applyFormattingToSelection_unfold st s e) by (auto; lia).
  simpl segments. unfold charAt.
  destruct (i <? 0) eqn:Ei; [reflexivity|]. zbool.
  rewrite restyleLoop_chars by assumption.
  rewrite nth_error_restyleChars.
  replace (0 + Z.of_nat (Z.to_nat i)) with i by lia. reflexivity.
Qed.

(** C2 (I4, P2, no effect outside the selection).  For every state whose
    selection is [s, e) with 0 <= s < e <= length of the input text,
    applying the chosen style leaves every position [i < s] or [i >= e]
    with the same character and the same foreground, background and
    style flags as before. *)
Theorem apply_leaves_outside_unchanged (st : AppState) (s e i : Z) :
  selectionStart st = Some s -> selectionEnd st = Some e ->
  0 <= s < e -> e <= len (inputText st) ->
  i < s \/ e <= i ->
  charAt (segments (applyFormattingToSelection st)) i
  = charAt (segments st) i.
Proof.
  intros Hs He Hse _ Hi.
  rewrite (charAt_applyFormattingToSelection st s e) by (auto; lia).
  replace ((s <=? i) && (i <? e)) with false.
  - apply option_map_pair_id.
  - symmetry. apply andb_false_iff.
    destruct Hi; [left; apply Z.leb_gt | right; apply Z.ltb_ge]; lia.
Qed.

Lemma apply_leaves_outside_unchanged_witness :
  charAt (segments (applyFormattingToSelection acrossBoundary)) 9
  = charAt (segments acrossBoundary) 9.
Proof.
  apply (apply_leaves_outside_unchanged acrossBoundary 3 8 9);
    try reflexivity; try (unfold len; simpl; lia).
Defined.

Lemma palette_codes_truthy (color : ColorOption) :
  In color foregroundColors \/ In color backgroundColors ->
  truthy (colorCode color) = true.
Proof.
  intros [H|H]; simpl in H;
    repeat (destruct H as [<-|H]; [reflexivity|]); contradiction.
Qed.

(** C3 (P5, per-attribute override).  Every selected character keeps
    the foreground of its segment when no foreground is chosen and the
    background of its segment when no background is chosen; a chosen
    palette colour replaces the attribute it belongs to.  A character of
    a segment with foreground 31 restyled with a background only thus
    keeps 31 and gains the background. *)
Theorem apply_merges_per_attribute (st : AppState) (s e i : Z)
    (c : N) (fg bg : option jsstring) (sty : list jsstring) :
  selectionStart st = Some s -> selectionEnd st = Some e ->
  0 <= s < e -> e <= len (inputText st) ->
  s <= i < e ->
  charAt (segments st) i = Some (c, (fg, bg, sty)) ->
  exists fg' bg' sty',
    charAt (segments (applyFormattingToSelection st)) i
    = Some (c, (fg', bg', sty'))
    /\ (selectedForeground st = None -> fg' = fg)
    /\ (selectedBackground st = None -> bg' = bg)
    /\ (forall color, selectedForeground st = Some color ->
          In color foregroundColors -> fg' = Some (colorCode color))
    /\ (forall color, selectedBackground st = Some color ->
          In color backgroundColors -> bg' = Some (colorCode color))
    /\ (fg = Some (lit "31") -> selectedForeground st = None ->
        forall color, selectedBackground st = Some color ->
          In color backgroundColors ->
          fg' = Some (lit "31") /\ bg' = Some (colorCode color)).
Proof.
  intros Hs He Hse _ Hi Hc.
  rewrite (charAt_applyFormattingToSelection st s e) by (auto; lia).
  rewrite Hc. simpl option_map.
  replace ((s <=? i) && (i <? e)) with true
    by (symmetry; apply andb_true_iff; split;
        [apply Z.leb_le | apply Z.ltb_lt]; lia).
  cbn [fst snd mergeAttrs].
  eexists _, _, _. split; [reflexivity|].
  assert (Hnone : forall sel x,
             sel = None -> JS.or (option_map colorCode sel) x = x).
  { intros sel x ->. reflexivity. }
  assert (Hsome : forall sel x color,
             sel = Some color ->
             In color foregroundColors \/ In color backgroundColors ->
             JS.or (option_map colorCode sel) x = Some (colorCode color)).
  { intros sel x color -> Hin. unfold JS.or. simpl.
    rewrite (palette_codes_truthy color Hin). reflexivity. }
  repeat split.
  - apply Hnone.
  - apply Hnone.
  - intros color Hsel Hin. apply (Hsome _ _ color); auto.
  - intros color Hsel Hin. apply (Hsome _ _ color); auto.
  - rewrite Hnone; assumption.
  - apply (Hsome _ _ color); auto.
Qed.

Lemma apply_merges_per_attribute_witness :
  exists fg' bg' sty',
    charAt (segments (applyFormattingToSelection redHelloSelected)) 1
    = Some (101%N, (fg', bg', sty'))
    /\ (selectedForeground redHelloSelected = None -> fg' = Some (lit "31"))
    /\ (selectedBackground redHelloSelected = None -> bg' = None)
    /\ (forall color, selectedForeground redHelloSelected = Some color ->
          In color foregroundColors -> fg' = Some (colorCode color))
    /\ (forall color, selectedBackground redHelloSelected = Some color ->
          In color backgroundColors -> bg' = Some (colorCode color))
    /\ (Some (lit "31") = Some (lit "31") ->
        selectedForeground redHelloSelected = None ->
        forall color, selectedBackground redHelloSelected = Some color ->
          In color backgroundColors ->
          fg' = Some (lit "31") /\ bg' = Some (colorCode color)).
Proof.
  apply (apply_merges_per_attribute redHelloSelected 0 5 1 101%N
           (Some (lit "31")) None []);
    try reflexivity; try (unfold len; simpl; lia).
Defined.

(** C7 (P3, idempotence).  For every state whose selection is [s, e)
    with 0 <= s < e <= length of the input text: applying the chosen
    style, selecting [s, e) again and applying the same choices again
    yields the Document obtained by applying them once. *)
Theorem apply_twice_is_apply_once (st : AppState) (s e : Z) :
  selectionStart st = Some s -> selectionEnd st = Some e ->
  0 <= s < e -> e <= len (inputText st) ->
  segments
    (applyFormattingToSelection
       (handleTextSelect s e (applyFormattingToSelection st)))
  = segments (applyFormattingToSelection st).
Proof.
  intros Hs He Hse _.
  rewrite (applyFormattingToSelection_unfold st s e) by (auto; lia).
  set (once := restyleLoop st s e (segments st) 0 []).
  unfold handleTextSelect.
  replace (s =? e) with false by (symmetry; apply Z.eqb_neq; lia).
  cbn [negb].
  rewrite (applyFormattingToSelection_unfold _ s e)
    by (try reflexivity; lia).
  cbn [segments setSelection setSegments].
  rewrite (restyleLoop_ext _ st) by reflexivity.
  unfold once. apply restyleLoop_idempotent. lia.
Qed.

Lemma apply_twice_is_apply_once_witness :
  segments
    (applyFormattingToSelection
       (handleTextSelect 3 8 (applyFormattingToSelection acrossBoundary)))
  = segments (applyFormattingToSelection acrossBoundary).
Proof.
  apply (apply_twice_is_apply_once acrossBoundary 3 8);
    try reflexivity; try (unfold len; simpl; lia).
Defined.

Lemma toggleStyle_appends (code : jsstring) (st : AppState) :
  includes (selectedStyles st) code = false ->
  selectedStyles (toggleStyle code st) = selectedStyles st ++ [code].
Proof. intros H. unfold toggleStyle. rewrite H. reflexivity. Qed.

(** C4, as the specification states it, fails: with underline switched
    on before bold the stored flags are 4, 1 and the encoder emits
    [4;1], not the declared order [1;4]. *)
Lemma underline_toggled_first_is_encoded_first :
  wellFormed underlineThenBold initialState = true
  /\ segments (run underlineThenBold initialState)
     = [mkSegment (lit "hi") None None [lit "4"; lit "1"]]
  /\ generateColoredText (run underlineThenBold initialState)
     = fenceOpen ++ ESC ++ lit "[4;1mhi" ++ resetCode ++ fenceClose
  /\ generateColoredText (run underlineThenBold initialState)
     <> fenceOpen
          ++ ansiCode (declaredOrder [lit "4"; lit "1"]
                         ++ attributeCode None ++ attributeCode None)
          ++ lit "hi" ++ resetCode ++ fenceClose.
Proof.
  split; [reflexivity|]. split; [reflexivity|]. split; [reflexivity|].
  vm_compute. discriminate.
Qed.

(** C5, as the specification states it, fails: deleting the only
    character of an unstyled text leaves one segment with empty text. *)
Lemma deleting_all_text_leaves_an_empty_segment :
  wellFormed typeThenDelete initialState = true
  /\ segments (run typeThenDelete initialState) = [plain []]
  /\ ~ noEmptySegment (segments (run typeThenDelete initialState)).
Proof.
  split; [reflexivity|]. split; [reflexivity|].
  intros H. inversion H as [|? ? Hne _]. apply Hne. reflexivity.
Qed.

Lemma noEmptySegment_zero_length (segs : list TextSegment) :
  noEmptySegment segs -> totalLength segs = 0 -> segs = [].
Proof.
  intros H Hz. destruct segs as [|seg rest]; [reflexivity|].
  inversion H as [|? ? Hne _]; subst.
  rewrite totalLength_cons in Hz.
  pose proof (totalLength_nonneg rest). pose proof (len_nonneg (text seg)).
  assert (Hl : len (text seg) = 0) by lia.
  apply len_nil_iff in Hl. contradiction.
Qed.

(** C5, amended.  After every sequence of events, while the input text
    is not empty no segment has empty text (style application and
    shrinking drop or never produce zero-length slices); when the input
    text is empty the Document is empty or is the single unstyled
    segment with empty text that reconciliation of an unstyled Document
    and clear-all build. *)
Theorem no_empty_segment_unless_text_is_empty (evs : list Event) :
  wellFormed evs initialState = true ->
  (inputText (run evs initialState) <> [] ->
   noEmptySegment (segments (run evs initialState)))
  /\ (inputText (run evs initialState) = [] ->
      segments (run evs initialState) = []
      \/ segments (run evs initialState) = [plain []]).
Proof.
  intros Hwf.
  destruct (run_invariant evs initialState initialState_invariant Hwf)
    as (Hlen & _ & [Hall|[Ht Hbox]]).
  - split; [intros _; exact Hall|].
    intros Ht. left. apply noEmptySegment_zero_length; [exact Hall|].
    unfold lengthInvariant in Hlen. rewrite Hlen, Ht. reflexivity.
  - split; [intros Hne; contradiction | intros _; right; exact Hbox].
Qed.

Lemma no_empty_segment_unless_text_is_empty_witness :
  wellFormed helloWorld initialState = true
  /\ (inputText (run helloWorld initialState) <> [] ->
      noEmptySegment (segments (run helloWorld initialState)))
  /\ (inputText (run helloWorld initialState) = [] ->
      segments (run helloWorld initialState) = []
      \/ segments (run helloWorld initialState) = [plain []]).
Proof.
  split; [reflexivity|].
  apply (no_empty_segment_unless_text_is_empty helloWorld). reflexivity.
Defined.




Lemma push_palette_code (tbl : list ColorOption) (sel : option ColorOption)
    (codes : list jsstring) :
  (tbl = foregroundColors \/ tbl = backgroundColors) ->
  (forall color, sel = Some color -> In color tbl) ->
  match sel with
  | Some c => codes ++ [colorCode c]
  | None => codes
  end
  = codes ++ attributeCode (option_map colorCode sel).
Proof.
  intros Htbl Hin. destruct sel as [color|]; simpl.
  - unfold attributeCode. simpl.
    rewrite palette_codes_truthy; [reflexivity|].
    destruct Htbl as [->| ->]; [left | right]; apply Hin; reflexivity.
  - symmetry. apply app_nil_r.
Qed.

(** C10 (refinement).  For every input text, every list of style flags
    and every optional foreground and background taken from the two
    palettes, the whole-text generator returns what the segmented
    generator returns for the Document made of the single segment that
    holds the whole text with those attributes. *)
Theorem whole_text_encoder_is_single_segment_encoder
    (t : jsstring) (sty : list jsstring) (fg bg : option ColorOption)
    (st : Segmented.AppState) :
  (forall color, fg = Some color -> In color foregroundColors) ->
  (forall color, bg = Some color -> In color backgroundColors) ->
  Segmented.inputText st = t ->
  Segmented.segments st
  = [mkSegment t (option_map colorCode fg) (option_map colorCode bg) sty] ->
  WholeText.generateColoredText (WholeText.mkState t fg bg sty)
  = Segmented.generateColoredText st.
Proof.
  intros Hfg Hbg Ht Hs.
  set (seg := mkSegment t (option_map colorCode fg) (option_map colorCode bg)
                sty) in *.
  unfold WholeText.generateColoredText.
  cbn [WholeText.inputText WholeText.selectedStyles
       WholeText.selectedForeground WholeText.selectedBackground].
  rewrite trim_truthy.
  destruct (isBlank t) eqn:Hb.
  { symmetry. apply generateColoredText_blank. rewrite Ht. exact Hb. }
  cbn [negb].
  rewrite generateColoredText_spans
    by (rewrite ?Ht, ?Hs; first [exact Hb | discriminate]).
  rewrite Hs. cbn [map List.concat]. rewrite app_nil_r.
  assert (Hsty : (if len sty >? 0 then [] ++ sty else []) = sty)
    by (destruct sty; reflexivity).
  rewrite Hsty.
  rewrite (push_palette_code foregroundColors fg) by auto.
  rewrite (push_palette_code backgroundColors bg) by auto.
  rewrite <- app_assoc.
  pose proof (segmentCodes_hasStyle seg) as Hh.
  rewrite segmentCodes_eq in Hh. cbn [seg styles foreground background] in Hh.
  unfold span. cbn [seg text styles foreground background].
  destruct t as [|c rest]; [discriminate|]. cbn [truthy negb].
  fold seg. rewrite <- Hh.
  set (codes := sty ++ attributeCode (option_map colorCode fg)
                  ++ attributeCode (option_map colorCode bg)).
  pose proof (len_nonneg codes).
  destruct (len codes =? 0) eqn:E0, (len codes >? 0) eqn:E1; zbool;
    try lia; rewrite <- ?app_assoc; reflexivity.
Qed.

Lemma whole_text_encoder_is_single_segment_encoder_witness :
  WholeText.generateColoredText
    (WholeText.mkState (lit "hello") (Some red) (Some blurple) [lit "1"])
  = Segmented.generateColoredText
      (mkState (lit "hello")
         [mkSegment (lit "hello") (Some (lit "31")) (Some (lit "45"))
            [lit "1"]]
         None None [] None None).
Proof.
  apply (whole_text_encoder_is_single_segment_encoder (lit "hello")
           [lit "1"] (Some red) (Some blurple));
    try reflexivity.
  - intros color H. injection H as <-. simpl. tauto.
  - intros color H. injection H as <-. simpl. tauto.
Defined.

(** ** Further properties of reconciliation *)

Lemma fullText_styledChars (segs : list TextSegment) :
  fullText segs = map fst (styledChars segs).
Proof.
  unfold fullText, styledChars.
  induction segs as [|seg rest IH]; [reflexivity|].
  cbn [map List.concat flat_map]. rewrite map_app, <- IH. f_equal.
  unfold charsOf. rewrite map_map. symmetry. apply map_id.
Qed.

Lemma fullText_app (a b : list TextSegment) :
  fullText (a ++ b) = fullText a ++ fullText b.
Proof. unfold fullText. rewrite map_app. apply concat_app. Qed.

Lemma len_fullText (segs : list TextSegment) :
  len (fullText segs) = totalLength segs.
Proof.
  rewrite fullText_styledChars, len_map. apply len_styledChars.
Qed.

(** The shrink loop keeps the first [remaining] characters of the
    Document, each with its attributes. *)
Lemma shrinkLoop_chars segs remaining :
  styledChars (shrinkLoop segs remaining [])
  = firstn (Z.to_nat remaining) (styledChars segs).
Proof.
  revert remaining. induction segs as [|seg rest IH]; intros remaining.
  - simpl. rewrite firstn_nil. reflexivity.
  - cbn [shrinkLoop app]. pose proof (len_nonneg (text seg)) as Hn.
    change (styledChars (seg :: rest)) with (charsOf seg ++ styledChars rest).
    assert (Hc : List.length (charsOf seg) = Z.to_nat (len (text seg))).
    { unfold charsOf, len. rewrite length_map. lia. }
    destruct (remaining <=? 0) eqn:E0; zbool.
    { replace (Z.to_nat remaining) with 0%nat by lia. reflexivity. }
    rewrite firstn_app, Hc.
    destruct (remaining >=? len (text seg)) eqn:E1; zbool.
    + rewrite shrinkLoop_acc, styledChars_app, styledChars_one, IH.
      rewrite (firstn_all2 (charsOf seg)) by lia. do 2 f_equal. lia.
    + rewrite shrinkLoop_acc, styledChars_app, styledChars_one.
      replace (Z.to_nat remaining - Z.to_nat (len (text seg)))%nat
        with 0%nat by lia.
      replace (shrinkLoop rest 0 []) with (@nil TextSegment)
        by (destruct rest; reflexivity).
      cbn [firstn styledChars flat_map]. f_equal.
      rewrite charsOf_withText. unfold charsOf.
      rewrite slice_inside by lia. cbn [skipn Z.to_nat].
      rewrite Z.sub_0_r. symmetry. apply firstn_map.
Qed.

(** X1.  When an edit makes the text of a styled Document shorter, the
    Document keeps its first [newText.length] characters -- the
    characters it held, not those of the new text -- each with the
    attributes it had; everything behind them is dropped. *)
Theorem shrink_keeps_styled_prefix (st : AppState) (newText : jsstring) :
  nothingStyledYet (segments st) = false ->
  len newText < totalLength (segments st) ->
  styledChars (segments (handleTextChange newText st))
  = firstn (Z.to_nat (len newText)) (styledChars (segments st)).
Proof.
  intros Hf Hd. rewrite handleTextChange_shrink by (auto; lia).
  apply shrinkLoop_chars.
Qed.

Lemma shrink_keeps_styled_prefix_witness :
  styledChars (segments (handleTextChange (lit "XYZ hel") redHelloWorld))
  = firstn (Z.to_nat (len (lit "XYZ hel")))
      (styledChars (segments redHelloWorld)).
Proof.
  apply (shrink_keeps_styled_prefix redHelloWorld (lit "XYZ hel"));
    reflexivity.
Defined.

(** X2.  An edit at the end of the text is tracked exactly: when the new
    text extends the text of the Document, or is a prefix of it, the
    text of the reconciled Document is the new text. *)
Theorem tail_edit_is_tracked (st : AppState) (newText : jsstring) :
  (exists added, newText = fullText (segments st) ++ added)
  \/ (exists removed, fullText (segments st) = newText ++ removed) ->
  fullText (segments (handleTextChange newText st)) = newText.
Proof.
  intros Hedit.
  destruct (nothingStyledYet (segments st)) eqn:Hf.
  { rewrite handleTextChange_fresh by assumption.
    unfold fullText. simpl. apply app_nil_r. }
  pose proof (len_fullText (segments st)) as Hlen.
  destruct Hedit as [[added Ha]|[removed Hr]].
  - destruct added as [|c added'].
    + rewrite app_nil_r in Ha.
      rewrite handleTextChange_same_length; [auto | assumption |].
      rewrite Ha, Hlen. lia.
    + destruct (exists_last (l := segments st)) as [front [l Hs]].
      { intros Hnil. rewrite Hnil in Hf. discriminate. }
      assert (Hd : len newText - totalLength (segments st) > 0).
      { rewrite Ha, len_app, Hlen. unfold len. simpl. lia. }
      rewrite (handleTextChange_grow _ _ front l Hf Hd Hs).
      rewrite <- Hlen. unfold len at 1. rewrite Nat2Z.id.
      rewrite Ha at 1. rewrite skipn_app, skipn_all, Nat.sub_diag.
      cbn [skipn app]. rewrite Ha, Hs, !fullText_app.
      unfold fullText. cbn [map List.concat text]. rewrite !app_nil_r.
      rewrite <- app_assoc. reflexivity.
  - destruct removed as [|c removed'].
    + rewrite app_nil_r in Hr.
      rewrite handleTextChange_same_length; [auto | assumption |].
      rewrite <- Hr, Hlen. lia.
    + assert (Hd : len newText - totalLength (segments st) < 0).
      { rewrite <- Hlen, Hr, len_app. unfold len. simpl. lia. }
      rewrite handleTextChange_shrink by assumption.
      rewrite fullText_styledChars, shrinkLoop_chars, <- firstn_map,
        <- fullText_styledChars, Hr.
      unfold len. rewrite Nat2Z.id.
      rewrite firstn_app, firstn_all, Nat.sub_diag. simpl.
      apply app_nil_r.
Qed.

Lemma tail_edit_is_tracked_witness :
  fullText (segments (handleTextChange (lit "hello wor") redHelloWorld))
  = lit "hello wor".
Proof.
  apply (tail_edit_is_tracked redHelloWorld (lit "hello wor")).
  right. exists (lit "ld"). reflexivity.
Defined.

(** X3.  An edit that keeps the length of a styled Document -- a
    replacement in the middle, say -- is not seen: the segments stay as
    they are, so the Document no longer spells the input text. *)
Theorem same_length_edit_is_not_tracked (st : AppState) (newText : jsstring) :
  nothingStyledYet (segments st) = false ->
  len newText = totalLength (segments st) ->
  newText <> fullText (segments st) ->
  segments (handleTextChange newText st) = segments st
  /\ fullText (segments (handleTextChange newText st))
     <> inputText (handleTextChange newText st).
Proof.
  intros Hf Hl Hne.
  rewrite handleTextChange_same_length by (auto; lia).
  rewrite handleTextChange_inputText. split; [reflexivity|].
  intros H. apply Hne. symmetry. exact H.
Qed.

Lemma same_length_edit_is_not_tracked_witness :
  segments (handleTextChange (lit "jelly world") redHelloWorld)
  = segments redHelloWorld
  /\ fullText (segments (handleTextChange (lit "jelly world") redHelloWorld))
     <> inputText (handleTextChange (lit "jelly world") redHelloWorld).
Proof.
  apply (same_length_edit_is_not_tracked redHelloWorld (lit "jelly world"));
    [reflexivity | reflexivity | vm_compute; discriminate].
Defined.

(** ** Further properties of style application *)

Lemma map_fst_restyleChars st s e p cs :
  map fst (restyleChars st s e p cs) = map fst cs.
Proof.
  revert p. induction cs as [|[c a] rest IH]; intros p; simpl.
  - reflexivity.
  - rewrite IH. reflexivity.
Qed.

(** X4.  Style application never changes the text: for a stored
    selection with start < end -- even a stale one that reaches beyond
    the text -- the segment texts of the new Document, one after the
    other, spell what those of the old one did. *)
Theorem apply_keeps_text (st : AppState) :
  selectionInvariant st ->
  fullText (segments (applyFormattingToSelection st))
  = fullText (segments st).
Proof.
  intros Hsel.
  destruct (applyFormattingToSelection_cases st)
    as [->|(s & e & Hs & He & Hne & ->)]; [reflexivity|].
  unfold selectionInvariant in Hsel. rewrite Hs, He in Hsel.
  cbn [segments setSelection setSegments].
  rewrite !fullText_styledChars, restyleLoop_chars by lia.
  apply map_fst_restyleChars.
Qed.

Lemma apply_keeps_text_witness :
  fullText (segments (applyFormattingToSelection acrossBoundary))
  = fullText (segments acrossBoundary).
Proof.
  apply (apply_keeps_text acrossBoundary).
  unfold selectionInvariant. simpl. lia.
Defined.

Section SegmentCount.

Variable st : AppState.
Variables selStart selEnd : Z.
Hypothesis nonZeroWidth : selStart < selEnd.

(** The boundaries of the selection that lie behind [currentPos]. *)
#[local] Abbreviation ahead currentPos :=
  ((if currentPos <? selStart then 1 else 0)
   + (if currentPos <? selEnd then 1 else 0)).

Lemma pieces_count currentPos seg :
  len (restyleSegment st selStart selEnd currentPos seg [])
  + ahead (currentPos + len (text seg))
  <= 1 + ahead currentPos.
Proof.
  pose proof (len_nonneg (text seg)) as Hn.
  unfold restyleSegment.
  destruct ((currentPos + len (text seg) <=? selStart)
            || (currentPos >=? selEnd)) eqn:E.
  { change (len ([] ++ [seg])) with 1.
    destruct (currentPos + len (text seg) <? selStart) eqn:E1,
      (currentPos + len (text seg) <? selEnd) eqn:E2,
      (currentPos <? selStart) eqn:E3, (currentPos <? selEnd) eqn:E4;
      zbool; lia. }
  destruct (truthy _).
  - destruct (currentPos + len (text seg) <? selStart) eqn:E1,
      (currentPos + len (text seg) <? selEnd) eqn:E2,
      (currentPos <? selStart) eqn:E3, (currentPos <? selEnd) eqn:E4,
      (currentPos + len (text seg) >? selEnd) eqn:E5;
      zbool; unfold len; simpl; lia.
  - destruct (currentPos + len (text seg) <? selStart) eqn:E1,
      (currentPos + len (text seg) <? selEnd) eqn:E2,
      (currentPos <? selStart) eqn:E3, (currentPos <? selEnd) eqn:E4,
      (currentPos + len (text seg) >? selEnd) eqn:E5;
      zbool; unfold len; simpl; lia.
Qed.

Lemma restyleLoop_count segs currentPos :
  len (restyleLoop st selStart selEnd segs currentPos [])
  <= len segs + ahead currentPos.
Proof.
  revert currentPos. induction segs as [|seg rest IH]; intros currentPos.
  - change (len (restyleLoop st selStart selEnd [] currentPos [])) with 0.
    change (len (@nil TextSegment)) with 0.
    destruct (currentPos <? selStart), (currentPos <? selEnd); lia.
  - rewrite restyleLoop_cons by assumption. rewrite len_app.
    pose proof (pieces_count currentPos seg) as Hp.
    specialize (IH (currentPos + len (text seg))).
    assert (Hl : len (seg :: rest) = 1 + len rest)
      by (unfold len; cbn [List.length]; lia).
    rewrite Hl. lia.
Qed.

Lemma restyleLoop_count_lower segs currentPos :
  len (filter (fun seg => truthy (text seg)) segs)
  <= len (restyleLoop st selStart selEnd segs currentPos []).
Proof.
  revert currentPos. induction segs as [|seg rest IH]; intros currentPos.
  - apply len_nonneg.
  - rewrite restyleLoop_cons by assumption. rewrite len_app.
    specialize (IH (currentPos + len (text seg))).
    pose proof (len_nonneg (restyleSegment st selStart selEnd currentPos seg []))
      as Hn.
    cbn [filter]. destruct (truthy (text seg)) eqn:E; [|lia].
    assert (Hl : forall x (l : list TextSegment), len (x :: l) = 1 + len l)
      by (intros; unfold len; cbn [List.length]; lia).
    rewrite Hl.
    assert (Hp : 1 <= len (restyleSegment st selStart selEnd currentPos seg
                             [])).
    { pose proof (pieces_noEmpty st selStart selEnd nonZeroWidth currentPos
                    seg (truthy_true_cons _ E)) as Hne.
      rewrite truthy_len in E. apply Z.gtb_lt in E.
      pose proof (restyleLoop_totalLength st selStart selEnd nonZeroWidth
                    [seg] currentPos) as Ht.
      cbn [restyleLoop] in Ht.
      destruct (restyleSegment st selStart selEnd currentPos seg []).
      - rewrite totalLength_cons, !totalLength_nil in Ht. lia.
      - rewrite Hl. pose proof (len_nonneg l). lia. }
    lia.
Qed.

End SegmentCount.

(** X5.  A style application cuts at most at the two ends of the
    selection and merges nothing: the new Document has at most two
    segments more than the old one, and at least as many segments as
    the old one has segments with text (only empty segments inside the
    selection are dropped). *)
Theorem apply_adds_at_most_two_segments (st : AppState) :
  selectionInvariant st ->
  len (filter (fun seg => truthy (text seg)) (segments st))
  <= len (segments (applyFormattingToSelection st))
  <= len (segments st) + 2.
Proof.
  intros Hsel.
  assert (Hf : len (filter (fun seg => truthy (text seg)) (segments st))
               <= len (segments st)).
  { unfold len. pose proof (filter_length_le
                              (fun seg => truthy (text seg)) (segments st)).
    lia. }
  destruct (applyFormattingToSelection_cases st)
    as [->|(s & e & Hs & He & Hne & ->)]; [lia|].
  unfold selectionInvariant in Hsel. rewrite Hs, He in Hsel.
  cbn [segments setSelection setSegments].
  pose proof (restyleLoop_count st s e ltac:(lia) (segments st) 0) as H.
  pose proof (restyleLoop_count_lower st s e ltac:(lia) (segments st) 0) as H'.
  destruct (0 <? s), (0 <? e); lia.
Qed.

Lemma apply_adds_at_most_two_segments_witness :
  len (filter (fun seg => truthy (text seg)) (segments acrossBoundary))
  <= len (segments (applyFormattingToSelection acrossBoundary))
  <= len (segments acrossBoundary) + 2.
Proof.
  apply (apply_adds_at_most_two_segments acrossBoundary).
  unfold selectionInvariant. simpl. lia.
Defined.

Lemma restyleChars_nothing_chosen st s e p cs :
  selectedForeground st = None -> selectedBackground st = None ->
  selectedStyles st = [] ->
  restyleChars st s e p cs = cs.
Proof.
  intros Hf Hb Hs. revert p.
  induction cs as [|[c [[fg bg] sty]] rest IH]; intros p; simpl.
  - reflexivity.
  - rewrite IH, Hf, Hb, Hs. simpl.
    destruct ((s <=? p) && (p <? e)); reflexivity.
Qed.

(** X6.  Applying with nothing chosen -- no foreground, no background,
    no style flag -- restyles nothing: every character keeps its
    attributes; only the segment boundaries may move. *)
Theorem apply_with_nothing_chosen (st : AppState) :
  selectionInvariant st ->
  selectedForeground st = None -> selectedBackground st = None ->
  selectedStyles st = [] ->
  styledChars (segments (applyFormattingToSelection st))
  = styledChars (segments st).
Proof.
  intros Hsel Hf Hb Hsty.
  destruct (applyFormattingToSelection_cases st)
    as [->|(s & e & Hs & He & Hne & ->)]; [reflexivity|].
  unfold selectionInvariant in Hsel. rewrite Hs, He in Hsel.
  cbn [segments setSelection setSegments].
  rewrite restyleLoop_chars by lia.
  apply restyleChars_nothing_chosen; assumption.
Qed.

Lemma apply_with_nothing_chosen_witness :
  styledChars
    (segments
       (applyFormattingToSelection
          (handleTextSelect 3 8 redHelloWorld)))
  = styledChars (segments (handleTextSelect 3 8 redHelloWorld)).
Proof.
  apply (apply_with_nothing_chosen (handleTextSelect 3 8 redHelloWorld));
    try reflexivity.
  unfold selectionInvariant. simpl. lia.
Defined.

(** X7.  The apply button and its handler agree: without a selection
    (the button is not rendered) the handler changes nothing; with one
    it clears the selection, so that the button disappears, leaves the
    input text and the three choices alone, and a second click would
    change nothing. *)
Theorem apply_consumes_the_selection (st : AppState) :
  (hasSelection st = false -> applyFormattingToSelection st = st)
  /\ hasSelection (applyFormattingToSelection st) = false
  /\ inputText (applyFormattingToSelection st) = inputText st
  /\ selectedForeground (applyFormattingToSelection st)
     = selectedForeground st
  /\ selectedBackground (applyFormattingToSelection st)
     = selectedBackground st
  /\ selectedStyles (applyFormattingToSelection st) = selectedStyles st
  /\ applyFormattingToSelection (applyFormattingToSelection st)
     = applyFormattingToSelection st.
Proof.
  unfold hasSelection, applyFormattingToSelection.
  destruct (selectionStart st) as [s|] eqn:Hs;
    [destruct (selectionEnd st) as [e|] eqn:He;
     [destruct (s =? e) eqn:E|]|];
    cbn [negb selectionStart selectionEnd setSelection setSegments
         inputText selectedForeground selectedBackground selectedStyles];
    rewrite ?Hs, ?He, ?E; repeat split; try reflexivity;
    intros H; discriminate.
Qed.

(** ** Further properties of the reachable states *)

Lemma handle_invariant ev st :
  reachableInvariant st -> eventOk st ev = true ->
  reachableInvariant (handle ev st).
Proof.
  intros Hinv Hok. destruct ev; simpl in *.
  - apply handleTextChange_invariant. exact Hinv.
  - zbool. apply handleTextSelect_invariant; [exact Hinv | lia].
  - exact Hinv.
  - exact Hinv.
  - exact Hinv.
  - apply applyFormattingToSelection_invariant. exact Hinv.
  - apply clearAll_invariant. exact Hinv.
Qed.

Lemma syncEffect_noop st : lengthInvariant st -> syncEffect st = st.
Proof.
  unfold lengthInvariant, syncEffect. intros Hlen.
  destruct ((len (segments st) =? 0) && truthy (inputText st)) eqn:E;
    [|reflexivity].
  zbool. apply len_nil_iff in H. rewrite H, totalLength_nil in Hlen.
  symmetry in Hlen. apply len_nil_iff in Hlen. rewrite Hlen in H0.
  discriminate.
Qed.

(** X8.  The effect of lines 61-70 never has anything to do: after the
    first render, and after every handler run in a reachable state, the
    segment list is empty only when the input text is, so the effect
    leaves the state as the handler left it. *)
Theorem effect_never_fires (evs : list Event) (ev : Event) :
  wellFormed evs initialState = true ->
  eventOk (run evs initialState) ev = true ->
  syncEffect initialState = initialState
  /\ syncEffect (handle ev (run evs initialState))
     = handle ev (run evs initialState).
Proof.
  intros Hwf Hok. split; [reflexivity|].
  apply syncEffect_noop.
  destruct (handle_invariant ev (run evs initialState)) as [Hlen _];
    [apply run_invariant; [apply initialState_invariant | exact Hwf]
    | exact Hok | exact Hlen].
Qed.

Lemma effect_never_fires_witness :
  syncEffect initialState = initialState
  /\ syncEffect (handle (TextChange []) (run redAb initialState))
     = handle (TextChange []) (run redAb initialState).
Proof.
  apply (effect_never_fires redAb (TextChange [])); reflexivity.
Defined.

Lemma shrinkLoop_zero segs : shrinkLoop segs 0 [] = [].
Proof. destruct segs; reflexivity. Qed.




Lemma totalLength_In seg segs :
  In seg segs -> len (text seg) <= totalLength segs.
Proof.
  induction segs as [|x rest IH]; intros Hin; [contradiction|].
  rewrite totalLength_cons.
  pose proof (totalLength_nonneg rest). pose proof (len_nonneg (text x)).
  destruct Hin as [->|Hin]; [lia|]. specialize (IH Hin). lia.
Qed.

(** X10.  The clear-all button is rendered only over a non-empty text:
    in a reachable state where some segment is styled the input text is
    not empty, so a click leaves exactly one segment, unstyled and with
    non-empty text, resets the three choices, and the button is gone. *)
Theorem clear_all_button_has_text_to_clear (evs : list Event) :
  wellFormed evs initialState = true ->
  showClearAll (run evs initialState) = true ->
  inputText (run evs initialState) <> []
  /\ segments (clearAll (run evs initialState))
     = [plain (inputText (run evs initialState))]
  /\ noEmptySegment (segments (clearAll (run evs initialState)))
  /\ showClearAll (clearAll (run evs initialState)) = false
  /\ selectedForeground (clearAll (run evs initialState)) = None
  /\ selectedBackground (clearAll (run evs initialState)) = None
  /\ selectedStyles (clearAll (run evs initialState)) = [].
Proof.
  intros Hwf Hshow.
  destruct (run_invariant evs initialState initialState_invariant Hwf)
    as (Hlen & _ & Hne).
  set (st := run evs initialState) in *.
  assert (Htext : inputText st <> []).
  { unfold showClearAll in Hshow. apply existsb_exists in Hshow.
    destruct Hshow as (seg & Hin & Hstyled).
    destruct Hne as [Hall|[_ Hbox]].
    - intros Hnil. unfold lengthInvariant in Hlen. rewrite Hnil in Hlen.
      change (len (@nil N)) with 0 in Hlen.
      pose proof (totalLength_In seg _ Hin) as Hle.
      pose proof (len_nonneg (text seg)).
      assert (Hz : len (text seg) = 0) by lia.
      apply len_nil_iff in Hz.
      unfold noEmptySegment in Hall. rewrite Forall_forall in Hall.
      exact (Hall seg Hin Hz).
    - rewrite Hbox in Hin. destruct Hin as [<-|[]]. discriminate. }
  split; [exact Htext|]. split; [reflexivity|]. split.
  - constructor; [exact Htext | constructor].
  - repeat split; reflexivity.
Qed.

Lemma clear_all_button_has_text_to_clear_witness :
  inputText (run helloWorld initialState) <> []
  /\ segments (clearAll (run helloWorld initialState))
     = [plain (inputText (run helloWorld initialState))]
  /\ noEmptySegment (segments (clearAll (run helloWorld initialState)))
  /\ showClearAll (clearAll (run helloWorld initialState)) = false
  /\ selectedForeground (clearAll (run helloWorld initialState)) = None
  /\ selectedBackground (clearAll (run helloWorld initialState)) = None
  /\ selectedStyles (clearAll (run helloWorld initialState)) = [].
Proof.
  apply (clear_all_button_has_text_to_clear helloWorld); reflexivity.
Defined.

(** The stored selection is a pair: both ends or none. *)
Lemma selection_paired_step ev st :
  (selectionStart st = None <-> selectionEnd st = None) ->
  (selectionStart (step ev st) = None <-> selectionEnd (step ev st) = None).
Proof.
  intros Hp. unfold step, syncEffect.
  assert (Hh : selectionStart (handle ev st) = None
               <-> selectionEnd (handle ev st) = None).
  { destruct ev; simpl; try exact Hp.
    - destruct (handleTextChange_selection newText st) as [-> ->]. exact Hp.
    - unfold handleTextSelect. destruct (negb (start =? end_)); simpl;
        split; intros H; try discriminate; reflexivity.
    - destruct (applyFormattingToSelection_cases st)
        as [->|(s & e & _ & _ & _ & ->)]; [exact Hp|].
      simpl. split; reflexivity. }
  destruct (_ && _); exact Hh.
Qed.

Lemma selection_paired_run evs st :
  (selectionStart st = None <-> selectionEnd st = None) ->
  (selectionStart (run evs st) = None <-> selectionEnd (run evs st) = None).
Proof.
  revert st. induction evs as [|ev rest IH]; intros st H; [exact H|].
  simpl. apply IH, selection_paired_step, H.
Qed.

(** X11.  In every reachable state the stored selection is either
    absent at both ends or a non-empty range [s, e) with 0 <= s < e, and
    the apply button is rendered exactly in the second case. *)
Theorem selection_is_absent_or_a_range (evs : list Event) :
  wellFormed evs initialState = true ->
  (selectionStart (run evs initialState) = None
   /\ selectionEnd (run evs initialState) = None
   /\ hasSelection (run evs initialState) = false)
  \/ (exists s e,
        selectionStart (run evs initialState) = Some s
        /\ selectionEnd (run evs initialState) = Some e
        /\ 0 <= s < e
        /\ hasSelection (run evs initialState) = true).
Proof.
  intros Hwf.
  destruct (run_invariant evs initialState initialState_invariant Hwf)
    as (_ & Hsel & _).
  assert (Hp : selectionStart (run evs initialState) = None
               <-> selectionEnd (run evs initialState) = None).
  { apply selection_paired_run. simpl. split; reflexivity. }
  unfold selectionInvariant, hasSelection in *.
  destruct (selectionStart (run evs initialState)) as [s|],
    (selectionEnd (run evs initialState)) as [e|].
  - right. exists s, e. repeat split; lia.
  - destruct Hp as [_ Hp]. specialize (Hp eq_refl). discriminate.
  - destruct Hp as [Hp _]. specialize (Hp eq_refl). discriminate.
  - left. repeat split.
Qed.

Lemma selection_is_absent_or_a_range_witness :
  (selectionStart (run [TextChange (lit "hello"); TextSelect 1 3]
                     initialState) = None
   /\ selectionEnd (run [TextChange (lit "hello"); TextSelect 1 3]
                      initialState) = None
   /\ hasSelection (run [TextChange (lit "hello"); TextSelect 1 3]
                      initialState) = false)
  \/ (exists s e,
        selectionStart (run [TextChange (lit "hello"); TextSelect 1 3]
                          initialState) = Some s
        /\ selectionEnd (run [TextChange (lit "hello"); TextSelect 1 3]
                           initialState) = Some e
        /\ 0 <= s < e
        /\ hasSelection (run [TextChange (lit "hello"); TextSelect 1 3]
                           initialState) = true).
Proof.
  apply (selection_is_absent_or_a_range
           [TextChange (lit "hello"); TextSelect 1 3]).
  reflexivity.
Defined.

(** ** The style vocabulary *)

Lemma streq_eq (a b : jsstring) : streq a b = true <-> a = b.
Proof.
  unfold streq. destruct (list_eq_dec N.eq_dec a b); split; intros H;
    try reflexivity; try assumption; try discriminate; contradiction.
Qed.

Lemma includes_In (l : list jsstring) (x : jsstring) :
  includes l x = true <-> In x l.
Proof.
  unfold includes. rewrite existsb_exists. split.
  - intros (y & Hin & Heq). apply streq_eq in Heq. subst. exact Hin.
  - intros Hin. exists x. split; [exact Hin | apply streq_eq; reflexivity].
Qed.

Lemma colorEqb_eq (a b : ColorOption) : colorEqb a b = true -> a = b.
Proof.
  destruct a as [n1 c1 p1 t1], b as [n2 c2 p2 t2]. unfold colorEqb. simpl.
  intros H. apply andb_true_iff in H. destruct H as [H Ht].
  apply andb_true_iff in H. destruct H as [H Hp].
  apply andb_true_iff in H. destruct H as [Hn Hc].
  apply streq_eq in Hn, Hc, Hp. subst.
  destruct t1, t2; try discriminate; reflexivity.
Qed.

Lemma swatch_in_table (color : ColorOption) (table : list ColorOption) :
  existsb (colorEqb color) table = true -> In color table.
Proof.
  intros H. apply existsb_exists in H. destruct H as (x & Hin & Heq).
  apply colorEqb_eq in Heq. subst. exact Hin.
Qed.

Lemma plain_inVocabulary (t : jsstring) : inVocabulary (plain t).
Proof. repeat split; simpl; auto; constructor. Qed.

Lemma shrinkLoop_Forall (P : TextSegment -> Prop) segs remaining :
  (forall seg t, P seg -> P (withText seg t)) ->
  Forall P segs -> Forall P (shrinkLoop segs remaining []).
Proof.
  intros Hw. revert remaining.
  induction segs as [|seg rest IH]; intros remaining H; simpl.
  - constructor.
  - inversion H as [|? ? Hseg Hrest]; subst.
    destruct (remaining <=? 0); [constructor|].
    destruct (remaining >=? len (text seg));
      rewrite shrinkLoop_acc; apply Forall_app; split; auto.
Qed.

Lemma restyleLoop_Forall (P : TextSegment -> Prop) st s e segs :
  (forall seg t, P seg -> P (withText seg t)) ->
  (forall seg t, P seg -> P (restyled st seg t)) ->
  forall currentPos newSegments,
    Forall P segs -> Forall P newSegments ->
    Forall P (restyleLoop st s e segs currentPos newSegments).
Proof.
  intros Hw Hr. induction segs as [|seg rest IH];
    intros currentPos newSegments Hsegs Hacc; simpl; [exact Hacc|].
  inversion Hsegs as [|? ? Hseg Hrest]; subst.
  apply IH; [exact Hrest|].
  unfold restyleSegment.
  destruct ((currentPos + len (text seg) <=? s) || (currentPos >=? e)).
  { apply Forall_app. auto. }
  destruct (currentPos <? s), (truthy _), (currentPos + len (text seg) >? e);
    repeat (apply Forall_app; split); auto.
Qed.

Lemma restyled_inVocabulary st seg t :
  choicesOk st -> inVocabulary seg -> inVocabulary (restyled st seg t).
Proof.
  intros (Hf & Hb & Hs) (Hsf & Hsb & Hss).
  assert (Hor : forall table sel v,
             (forall color, sel = Some color -> In color table) ->
             codeOf table v ->
             codeOf table (JS.or (option_map colorCode sel) v)).
  { intros table sel v Hin Hv. unfold JS.or.
    destruct (truthyOpt (option_map colorCode sel)); [|exact Hv].
    destruct sel as [color|]; simpl; [|exact I].
    apply in_map, Hin. reflexivity. }
  unfold inVocabulary, restyled. simpl. repeat split.
  - apply Hor; assumption.
  - apply Hor; assumption.
  - destruct (len (selectedStyles st) >? 0); [apply Hs | apply Hss].
  - destruct (len (selectedStyles st) >? 0); [apply Hs | apply Hss].
Qed.

Lemma handleTextChange_choices newText st :
  selectedForeground (handleTextChange newText st) = selectedForeground st
  /\ selectedBackground (handleTextChange newText st) = selectedBackground st
  /\ selectedStyles (handleTextChange newText st) = selectedStyles st.
Proof.
  unfold handleTextChange.
  destruct (nothingStyledYet (segments st)); [repeat split|].
  destruct (_ >? 0); [destruct (nth_error _ _); repeat split|].
  destruct (_ <? 0); repeat split.
Qed.

Lemma handleTextChange_vocabulary newText st :
  Forall inVocabulary (segments st) ->
  Forall inVocabulary (segments (handleTextChange newText st)).
Proof.
  intros H.
  destruct (nothingStyledYet (segments st)) eqn:Hf.
  { rewrite handleTextChange_fresh by assumption.
    constructor; [apply plain_inVocabulary | constructor]. }
  destruct (Z.lt_trichotomy (len newText - totalLength (segments st)) 0)
    as [Hd|[Hd|Hd]].
  - rewrite handleTextChange_shrink by assumption.
    apply shrinkLoop_Forall; [intros seg t Hseg; exact Hseg | exact H].
  - rewrite handleTextChange_same_length; assumption.
  - destruct (exists_last (l := segments st)) as [front [l Hs]].
    { intros Hnil. rewrite Hnil in Hf. discriminate. }
    rewrite (handleTextChange_grow _ _ front l) by (auto; lia).
    rewrite Hs in H. apply Forall_app in H. destruct H as [H1 H2].
    apply Forall_app. split; [exact H1|].
    inversion H2 as [|? ? Hl _]; subst. constructor; [exact Hl|constructor].
Qed.

Lemma toggled_flagsOk (prev : list jsstring) (code : jsstring) :
  flagsOk prev -> In code styleCodes ->
  flagsOk (if includes prev code
           then filter (fun s => negb (streq s code)) prev
           else prev ++ [code]).
Proof.
  intros [Hnd Hall] Hcode. destruct (includes prev code) eqn:E.
  - split; [apply NoDup_filter, Hnd|].
    rewrite Forall_forall in *. intros x Hx.
    apply filter_In in Hx. apply Hall, Hx.
  - split.
    + apply NoDup_app; [exact Hnd | constructor; [intros [] | constructor] |].
      intros x Hx [<-|[]].
      apply includes_In in Hx. rewrite Hx in E. discriminate.
    + apply Forall_app. split; [exact Hall|].
      constructor; [exact Hcode | constructor].
Qed.

Lemma step_vocabulary ev st :
  eventOk st ev = true ->
  choicesOk st /\ Forall inVocabulary (segments st) ->
  choicesOk (step ev st) /\ Forall inVocabulary (segments (step ev st)).
Proof.
  intros Hok [Hch Hsegs].
  assert (Hh : choicesOk (handle ev st)
               /\ Forall inVocabulary (segments (handle ev st))).
  { destruct ev; cbn [eventOk handle] in *.
    - split; [|apply handleTextChange_vocabulary, Hsegs].
      unfold choicesOk.
      destruct (handleTextChange_choices newText st) as (-> & -> & ->).
      exact Hch.
    - unfold handleTextSelect.
      destruct (negb (start =? end_)); split; assumption.
    - split; [|exact Hsegs]. destruct Hch as (Hf & Hb & Hs).
      unfold pickForeground, choicesOk, setSelectedForeground.
      cbn [selectedForeground selectedBackground selectedStyles].
      repeat split; try assumption; try apply Hs.
      destruct (sameCode (selectedForeground st) color);
        intros c Hc; [discriminate|].
      injection Hc as <-. exact (swatch_in_table _ _ Hok).
    - split; [|exact Hsegs]. destruct Hch as (Hf & Hb & Hs).
      unfold pickBackground, choicesOk, setSelectedBackground.
      cbn [selectedForeground selectedBackground selectedStyles].
      repeat split; try assumption; try apply Hs.
      destruct (sameCode (selectedBackground st) color);
        intros c Hc; [discriminate|].
      injection Hc as <-. exact (swatch_in_table _ _ Hok).
    - split; [|exact Hsegs]. destruct Hch as (Hf & Hb & Hs).
      unfold toggleStyle, choicesOk, setSelectedStyles.
      cbn [selectedForeground selectedBackground selectedStyles].
      split; [exact Hf|]. split; [exact Hb|].
      apply toggled_flagsOk; [exact Hs|].
      apply existsb_exists in Hok. destruct Hok as (x & Hin & Heq).
      apply streq_eq in Heq. subst. apply in_map, Hin.
    - destruct (applyFormattingToSelection_cases st)
        as [->|(s & e & _ & _ & _ & ->)]; [split; assumption|].
      split; [exact Hch|]. simpl.
      apply restyleLoop_Forall;
        [ intros seg t Hseg; exact Hseg
        | intros seg t Hseg; apply restyled_inVocabulary; assumption
        | exact Hsegs
        | constructor ].
    - split.
      + unfold choicesOk. simpl.
        repeat split; try (intros c Hc; discriminate); constructor.
      + simpl. constructor; [apply plain_inVocabulary | constructor]. }
  unfold step, syncEffect. destruct (_ && _); [|exact Hh].
  destruct Hh as [Hch' _]. split; [exact Hch'|].
  simpl. constructor; [apply plain_inVocabulary | constructor].
Qed.

Lemma run_vocabulary (evs : list Event) :
  wellFormed evs initialState = true ->
  choicesOk (run evs initialState)
  /\ Forall inVocabulary (segments (run evs initialState)).
Proof.
  assert (Hgen : forall st,
             wellFormed evs st = true ->
             choicesOk st /\ Forall inVocabulary (segments st) ->
             choicesOk (run evs st)
             /\ Forall inVocabulary (segments (run evs st))).
  { induction evs as [|ev rest IH]; intros st Hwf Hinv; [exact Hinv|].
    simpl in *. apply andb_true_iff in Hwf. destruct Hwf as [Hok Hwf].
    apply IH; [exact Hwf | apply step_vocabulary; assumption]. }
  intros Hwf. apply Hgen; [exact Hwf|].
  split; [|constructor].
  repeat split; try (intros c Hc; discriminate); constructor.
Qed.

(** X12.  Only the style vocabulary is ever stored: in every reachable
    state each segment's foreground is absent or one of the eight
    foreground codes, its background absent or one of the eight
    background codes, its style flags codes of [textStyles] without
    repetition; and the user's current choices are entries of the three
    tables. *)
Theorem reachable_states_use_the_vocabulary (evs : list Event) :
  wellFormed evs initialState = true ->
  choicesOk (run evs initialState)
  /\ Forall inVocabulary (segments (run evs initialState)).
Proof. exact (run_vocabulary evs). Qed.

Lemma reachable_states_use_the_vocabulary_witness :
  choicesOk (run helloWorld initialState)
  /\ Forall inVocabulary (segments (run helloWorld initialState)).
Proof.
  apply (reachable_states_use_the_vocabulary helloWorld). reflexivity.
Defined.

Lemma attributeCode_cases (v : option jsstring) :
  attributeCode v = []
  \/ exists code, v = Some code /\ attributeCode v = [code].
Proof.
  unfold attributeCode. destruct (truthyOpt v); [|left; reflexivity].
  destruct v as [code|]; [right; exists code; auto | left; reflexivity].
Qed.

Lemma inVocabulary_codes (seg : TextSegment) :
  inVocabulary seg ->
  len (segmentCodes seg) <= 4
  /\ Forall (fun code =>
               In code (styleCodes ++ map colorCode foregroundColors
                          ++ map colorCode backgroundColors))
       (segmentCodes seg).
Proof.
  intros (Hf & Hb & Hnd & Hall). rewrite segmentCodes_eq. split.
  - assert (Hs : (List.length (styles seg) <= 2)%nat).
    { change 2%nat with (List.length styleCodes).
      apply NoDup_incl_length; [exact Hnd|].
      intros x Hx. rewrite Forall_forall in Hall. apply Hall, Hx. }
    rewrite !len_app. unfold len at 1.
    destruct (attributeCode_cases (foreground seg)) as [-> | (c & _ & ->)],
      (attributeCode_cases (background seg)) as [-> | (d & _ & ->)];
      unfold len; simpl; lia.
  - apply Forall_app. split; [|apply Forall_app; split].
    + rewrite Forall_forall in *. intros x Hx.
      apply in_or_app. left. apply Hall, Hx.
    + destruct (attributeCode_cases (foreground seg))
        as [-> | (c & Hc & ->)]; [constructor|].
      constructor; [|constructor]. rewrite Hc in Hf.
      apply in_or_app. right. apply in_or_app. left. exact Hf.
    + destruct (attributeCode_cases (background seg))
        as [-> | (c & Hc & ->)]; [constructor|].
      constructor; [|constructor]. rewrite Hc in Hb.
      apply in_or_app. right. apply in_or_app. right. exact Hb.
Qed.

(** X13.  In every reachable state the encoder has at most four codes
    to emit for a segment (two style flags, a foreground, a
    background), and each of them is a code of the style vocabulary. *)
Theorem reachable_spans_carry_vocabulary_codes (evs : list Event) :
  wellFormed evs initialState = true ->
  Forall
    (fun seg =>
       len (segmentCodes seg) <= 4
       /\ Forall (fun code =>
                    In code (styleCodes ++ map colorCode foregroundColors
                               ++ map colorCode backgroundColors))
            (segmentCodes seg))
    (segments (run evs initialState)).
Proof.
  intros Hwf.
  destruct (run_vocabulary evs Hwf) as [_ H].
  rewrite Forall_forall in *. intros seg Hin.
  apply inVocabulary_codes, H, Hin.
Qed.

Lemma reachable_spans_carry_vocabulary_codes_witness :
  Forall
    (fun seg =>
       len (segmentCodes seg) <= 4
       /\ Forall (fun code =>
                    In code (styleCodes ++ map colorCode foregroundColors
                               ++ map colorCode backgroundColors))
            (segmentCodes seg))
    (segments (run helloWorld initialState)).
Proof.
  apply (reachable_spans_carry_vocabulary_codes helloWorld). reflexivity.
Defined.

(** ** Toggling a style flag *)

Lemma toggled_In (prev : list jsstring) (code c : jsstring) :
  In c (if includes prev code
        then filter (fun s => negb (streq s code)) prev
        else prev ++ [code])
  <-> (c = code /\ ~ In code prev) \/ (c <> code /\ In c prev).
Proof.
  destruct (list_eq_dec N.eq_dec c code) as [Heq|Hneq].
  - subst c. destruct (includes prev code) eqn:E.
    + apply includes_In in E. rewrite filter_In. split.
      * intros [_ H]. apply negb_true_iff in H.
        assert (Ht : streq code code = true) by (apply streq_eq; reflexivity).
        rewrite Ht in H. discriminate.
      * intros [[_ H]|[H _]]; contradiction.
    + assert (Hn : ~ In code prev).
      { intros H. apply includes_In in H. rewrite H in E. discriminate. }
      rewrite in_app_iff. split; [left; auto | intros _; right; left; auto].
  - destruct (includes prev code) eqn:E.
    + rewrite filter_In. split.
      * intros [H _]. right. auto.
      * intros [[H _]|[_ H]]; [contradiction|]. split; [exact H|].
        apply negb_true_iff. destruct (streq c code) eqn:Es; [|reflexivity].
        apply streq_eq in Es. contradiction.
    + rewrite in_app_iff. split.
      * intros [H|[H|[]]]; [right; auto | symmetry in H; contradiction].
      * intros [[H _]|[_ H]]; [contradiction | left; exact H].
Qed.

(** X14.  [toggleStyle], in both components, flips the toggled flag
    and nothing else: afterwards the flag is on exactly if it was off
    before, and every other flag is on exactly if it was on before. *)
Theorem toggleStyle_flips_one_flag (code c : jsstring) :
  (forall st : Segmented.AppState,
     In c (Segmented.selectedStyles (Segmented.toggleStyle code st))
     <-> (c = code /\ ~ In code (Segmented.selectedStyles st))
         \/ (c <> code /\ In c (Segmented.selectedStyles st)))
  /\ (forall st : WholeText.AppState,
        In c (WholeText.selectedStyles (WholeText.toggleStyle code st))
        <-> (c = code /\ ~ In code (WholeText.selectedStyles st))
            \/ (c <> code /\ In c (WholeText.selectedStyles st))).
Proof. split; intros st; apply toggled_In. Qed.

(** ** Further properties of the encoder *)

Lemma span_plain (seg : TextSegment) :
  hasStyle seg = false -> span seg = text seg.
Proof.
  intros H. unfold span. rewrite H.
  destruct (text seg); reflexivity.
Qed.

Lemma spans_plain (segs : list TextSegment) :
  Forall (fun seg => hasStyle seg = false) segs ->
  List.concat (map span segs) = fullText segs.
Proof.
  unfold fullText. induction 1 as [|seg rest Hseg _ IH]; [reflexivity|].
  cbn [map List.concat]. rewrite IH, span_plain by assumption. reflexivity.
Qed.

(** X15 (plain text).  A Document none of whose segments is styled
    encodes, when the input text is not blank, to the fence around the
    segment texts: the output holds no escape sequence of the
    encoder's. *)
Theorem plain_document_encodes_to_fenced_text (st : AppState) :
  isBlank (inputText st) = false -> segments st <> [] ->
  showClearAll st = false ->
  generateColoredText st
  = fenceOpen ++ fullText (segments st) ++ fenceClose.
Proof.
  intros Hb Hs Hplain.
  rewrite generateColoredText_spans by assumption.
  rewrite spans_plain; [reflexivity|].
  apply Forall_forall. intros seg Hin.
  destruct (hasStyle seg) eqn:E; [|reflexivity].
  unfold showClearAll in Hplain.
  assert (Hex : existsb hasStyle (segments st) = true)
    by (apply existsb_exists; exists seg; auto).
  rewrite Hex in Hplain. discriminate.
Qed.

Lemma plain_document_encodes_to_fenced_text_witness :
  generateColoredText twoPlainSegments
  = fenceOpen ++ fullText (segments twoPlainSegments) ++ fenceClose.
Proof.
  apply (plain_document_encodes_to_fenced_text twoPlainSegments);
    [reflexivity | discriminate | reflexivity].
Defined.

(** X16.  After clear-all the output is the plain input text in its
    fence, or nothing when the input text is blank: whatever was styled
    before, no escape sequence is left. *)
Theorem clearAll_resets_the_output (st : AppState) :
  generateColoredText (clearAll st)
  = if isBlank (inputText st) then []
    else fenceOpen ++ inputText st ++ fenceClose.
Proof.
  destruct (isBlank (inputText st)) eqn:Hb.
  - apply generateColoredText_blank. exact Hb.
  - rewrite generateColoredText_spans; [|exact Hb|discriminate].
    cbn [clearAll segments setSelectedStyles setSelectedBackground
         setSelectedForeground setSegments map List.concat].
    rewrite span_plain by reflexivity. cbn [plain text].
    rewrite app_nil_r. reflexivity.
Qed.

Lemma spans_skip_empty (segs : list TextSegment) :
  List.concat (map span (filter (fun seg => truthy (text seg)) segs))
  = List.concat (map span segs).
Proof.
  induction segs as [|seg rest IH]; [reflexivity|].
  cbn [filter map List.concat].
  destruct (truthy (text seg)) eqn:E.
  - cbn [map List.concat]. rewrite IH. reflexivity.
  - rewrite IH. unfold span at 2. rewrite E. reflexivity.
Qed.

(** X17.  Segments with empty text are invisible in the output:
    removing them from the Document changes nothing of what is encoded,
    as long as a segment is left. *)
Theorem empty_segments_are_not_encoded (st : AppState) :
  filter (fun seg => truthy (text seg)) (segments st) <> [] ->
  generateColoredText
    (setSegments (filter (fun seg => truthy (text seg)) (segments st)) st)
  = generateColoredText st.
Proof.
  intros Hne.
  destruct (isBlank (inputText st)) eqn:Hb.
  - rewrite !generateColoredText_blank; auto.
  - rewrite !generateColoredText_spans; auto.
    + cbn [segments setSegments]. rewrite spans_skip_empty. reflexivity.
    + intros Hnil. rewrite Hnil in Hne. apply Hne. reflexivity.
Qed.

Lemma empty_segments_are_not_encoded_witness :
  generateColoredText
    (setSegments
       (filter (fun seg => truthy (text seg))
          (segments
             (setSegments (plain [] :: segments redHelloWorld)
                redHelloWorld)))
       (setSegments (plain [] :: segments redHelloWorld) redHelloWorld))
  = generateColoredText
      (setSegments (plain [] :: segments redHelloWorld) redHelloWorld).
Proof.
  apply (empty_segments_are_not_encoded
           (setSegments (plain [] :: segments redHelloWorld) redHelloWorld)).
  discriminate.
Defined.

(** ** The whole-text generator *)

(** X18.  The whole-text generator returns the empty string exactly
    for a blank input text, whatever is chosen; and its clear-all
    leaves the text in place, hides its own button and makes the
    output the plain fenced text. *)
Theorem whole_text_output_and_clear_all (st : WholeText.AppState) :
  (WholeText.generateColoredText st = []
   <-> isBlank (WholeText.inputText st) = true)
  /\ WholeText.inputText (WholeText.clearAll st) = WholeText.inputText st
  /\ WholeText.showClearAll (WholeText.clearAll st) = false
  /\ WholeText.generateColoredText (WholeText.clearAll st)
     = if isBlank (WholeText.inputText st) then []
       else fenceOpen ++ WholeText.inputText st ++ fenceClose.
Proof.
  split; [|split; [reflexivity | split; [reflexivity|]]].
  - unfold WholeText.generateColoredText. rewrite trim_truthy.
    destruct (isBlank (WholeText.inputText st)); cbn [negb].
    + split; reflexivity.
    + split; [|discriminate].
      destruct (len _ =? 0); intros H; discriminate.
  - unfold WholeText.generateColoredText, WholeText.clearAll.
    cbn [WholeText.inputText WholeText.selectedStyles
         WholeText.selectedForeground WholeText.selectedBackground].
    rewrite trim_truthy.
    destruct (isBlank (WholeText.inputText st)); reflexivity.
Qed.

(** ** The segmented editor reproduces the whole-text generator *)

Lemma run_app (a b : list Event) (st : AppState) :
  run (a ++ b) st = run b (run a st).
Proof.
  revert st. induction a as [|ev rest IH]; intros st; [reflexivity|].
  simpl. apply IH.
Qed.

Lemma syncEffect_segments (st : AppState) :
  segments st <> [] -> syncEffect st = st.
Proof.
  intros H. unfold syncEffect.
  destruct (segments st) as [|seg rest]; [contradiction|reflexivity].
Qed.

Lemma run_style_clicks (sty : list jsstring) (st : AppState) :
  segments st <> [] -> NoDup (selectedStyles st ++ sty) ->
  run (map ClickStyle sty) st
  = setSelectedStyles (selectedStyles st ++ sty) st.
Proof.
  revert st. induction sty as [|code rest IH]; intros st Hs Hnd.
  - destruct st. unfold setSelectedStyles. simpl. rewrite app_nil_r.
    reflexivity.
  - cbn [map run]. unfold step. cbn [handle].
    assert (Hoff : includes (selectedStyles st) code = false).
    { destruct (includes (selectedStyles st) code) eqn:E; [|reflexivity].
      apply includes_In in E. apply NoDup_remove_2 in Hnd.
      exfalso. apply Hnd. apply in_or_app. left. exact E. }
    unfold toggleStyle. rewrite Hoff.
    rewrite syncEffect_segments by exact Hs.
    rewrite IH.
    + unfold setSelectedStyles. simpl. rewrite <- app_assoc. reflexivity.
    + exact Hs.
    + simpl. rewrite <- app_assoc. exact Hnd.
Qed.

Lemma run_foreground_click (fg : option ColorOption) (st : AppState) :
  segments st <> [] -> selectedForeground st = None ->
  run match fg with Some color => [ClickForeground color] | None => [] end st
  = setSelectedForeground fg st.
Proof.
  intros Hs Hf. destruct fg as [color|].
  - cbn [run]. unfold step. cbn [handle]. unfold pickForeground.
    rewrite Hf. cbn [sameCode]. apply syncEffect_segments. exact Hs.
  - destruct st. simpl in Hf. subst. reflexivity.
Qed.

Lemma run_background_click (bg : option ColorOption) (st : AppState) :
  segments st <> [] -> selectedBackground st = None ->
  run match bg with Some color => [ClickBackground color] | None => [] end st
  = setSelectedBackground bg st.
Proof.
  intros Hs Hb. destruct bg as [color|].
  - cbn [run]. unfold step. cbn [handle]. unfold pickBackground.
    rewrite Hb. cbn [sameCode]. apply syncEffect_segments. exact Hs.
  - destruct st. simpl in Hb. subst. reflexivity.
Qed.

Lemma run_pickAll (sty : list jsstring) (fg bg : option ColorOption)
    (st : AppState) :
  segments st <> [] -> NoDup sty ->
  selectedForeground st = None -> selectedBackground st = None ->
  selectedStyles st = [] ->
  run (pickAll sty fg bg) st
  = mkState (inputText st) (segments st) fg bg sty
      (selectionStart st) (selectionEnd st).
Proof.
  intros Hs Hnd Hf Hb Hsty. unfold pickAll.
  rewrite run_app, run_style_clicks by (rewrite ?Hsty; assumption).
  rewrite Hsty. cbn [app].
  rewrite run_app, run_foreground_click by assumption.
  rewrite run_background_click by assumption.
  reflexivity.
Qed.

Lemma wholeText_as_span (t : jsstring) (sty : list jsstring)
    (fg bg : option ColorOption) :
  (forall color, fg = Some color -> In color foregroundColors) ->
  (forall color, bg = Some color -> In color backgroundColors) ->
  WholeText.generateColoredText (WholeText.mkState t fg bg sty)
  = if isBlank t then []
    else fenceOpen
           ++ span (mkSegment t (option_map colorCode fg)
                      (option_map colorCode bg) sty)
           ++ fenceClose.
Proof.
  intros Hfg Hbg.
  set (seg := mkSegment t (option_map colorCode fg) (option_map colorCode bg)
                sty).
  unfold WholeText.generateColoredText.
  cbn [WholeText.inputText WholeText.selectedStyles
       WholeText.selectedForeground WholeText.selectedBackground].
  rewrite trim_truthy. destruct (isBlank t) eqn:Hb; [reflexivity|].
  cbn [negb].
  assert (Hsty : (if len sty >? 0 then [] ++ sty else []) = sty)
    by (destruct sty; reflexivity).
  rewrite Hsty.
  rewrite (push_palette_code foregroundColors fg) by auto.
  rewrite (push_palette_code backgroundColors bg) by auto.
  rewrite <- app_assoc.
  pose proof (segmentCodes_hasStyle seg) as Hh.
  rewrite segmentCodes_eq in Hh. cbn [seg styles foreground background] in Hh.
  unfold span. cbn [seg text styles foreground background].
  destruct t as [|c rest]; [discriminate|]. cbn [truthy negb].
  fold seg. rewrite <- Hh.
  set (codes := sty ++ attributeCode (option_map colorCode fg)
                  ++ attributeCode (option_map colorCode bg)).
  pose proof (len_nonneg codes).
  destruct (len codes =? 0) eqn:E0, (len codes >? 0) eqn:E1; zbool;
    try lia; rewrite <- ?app_assoc; reflexivity.
Qed.

Lemma or_palette (table : list ColorOption) (sel : option ColorOption) :
  (table = foregroundColors \/ table = backgroundColors) ->
  (forall color, sel = Some color -> In color table) ->
  JS.or (option_map colorCode sel) None = option_map colorCode sel.
Proof.
  intros Ht Hin. destruct sel as [color|]; [|reflexivity].
  unfold JS.or. simpl. rewrite palette_codes_truthy; [reflexivity|].
  destruct Ht as [-> | ->]; [left | right]; apply Hin; reflexivity.
Qed.

(** X19.  Every output of the whole-text generator is reproduced by
    the segmented editor: typing the text into the fresh box, selecting
    all of it, choosing the same style flags (each once) and the same
    palette colours and applying them encodes to what the whole-text
    generator returns for that text and those choices. *)
Theorem segmented_editor_reproduces_whole_text_generator
    (t : jsstring) (sty : list jsstring) (fg bg : option ColorOption) :
  NoDup sty ->
  (forall color, fg = Some color -> In color foregroundColors) ->
  (forall color, bg = Some color -> In color backgroundColors) ->
  Segmented.generateColoredText
    (run (styleWholeText t sty fg bg) initialState)
  = WholeText.generateColoredText (WholeText.mkState t fg bg sty).
Proof.
  intros Hnd Hfg Hbg. rewrite wholeText_as_span by assumption.
  unfold styleWholeText. rewrite run_app.
  set (st1 := run [TextChange t; TextSelect 0 (len t)] initialState).
  assert (H1 : inputText st1 = t /\ segments st1 = [plain t]
               /\ selectedForeground st1 = None
               /\ selectedBackground st1 = None
               /\ selectedStyles st1 = []
               /\ ((t = [] /\ selectionStart st1 = None)
                   \/ (0 < len t /\ selectionStart st1 = Some 0
                       /\ selectionEnd st1 = Some (len t)))).
  { unfold st1. destruct t as [|c rest].
    - repeat split. left. split; reflexivity.
    - repeat split. right. unfold len. simpl. repeat split; try lia. }
  destruct H1 as (Ht & Hs & Hf & Hb & Hsty & Hsel). clearbody st1.
  rewrite run_app, run_pickAll
    by (try assumption; rewrite Hs; discriminate).
  rewrite Ht, Hs. cbn [run]. unfold step. cbn [handle].
  destruct Hsel as [[Hnil Hnone]|(Hpos & Hstart & Hend)].
  - rewrite Hnone, Hnil. reflexivity.
  - rewrite Hstart, Hend.
    assert (Hblank : isBlank t = false -> t <> []).
    { intros _ E. rewrite E in Hpos. unfold len in Hpos. simpl in Hpos. lia. }
    unfold applyFormattingToSelection.
    cbn [selectionStart selectionEnd].
    replace (0 =? len t) with false by (symmetry; apply Z.eqb_neq; lia).
    cbn [segments].
    rewrite restyleLoop_cons by lia.
    rewrite pieces_overlap by (cbn [plain text]; lia).
    cbn [plain text restyleLoop app].
    replace (0 <? 0) with false by reflexivity.
    replace (0 + len t >? len t) with false
      by (symmetry; rewrite Z.gtb_ltb; apply Z.ltb_ge; lia).
    replace (Z.max 0 (0 - 0)) with 0 by reflexivity.
    replace (Z.min (len t) (len t - 0)) with (len t) by lia.
    rewrite slice_whole. cbn [app].
    unfold restyled, plain.
    cbn [selectedForeground selectedBackground selectedStyles foreground
         background styles].
    rewrite (or_palette foregroundColors fg) by auto.
    rewrite (or_palette backgroundColors bg) by auto.
    replace (if len sty >? 0 then sty else []) with sty
      by (destruct sty; reflexivity).
    rewrite syncEffect_segments by (cbn; discriminate).
    destruct (isBlank t) eqn:Hbl.
    + apply generateColoredText_blank. exact Hbl.
    + rewrite generateColoredText_spans; [|exact Hbl|discriminate].
      cbn [segments setSelection setSegments map List.concat].
      rewrite app_nil_r. reflexivity.
Qed.

Lemma segmented_editor_reproduces_whole_text_generator_witness :
  Segmented.generateColoredText
    (run (styleWholeText (lit "hello") [lit "4"; lit "1"] (Some red) None)
       initialState)
  = WholeText.generateColoredText
      (WholeText.mkState (lit "hello") (Some red) None [lit "4"; lit "1"]).
Proof.
  apply (segmented_editor_reproduces_whole_text_generator (lit "hello")
           [lit "4"; lit "1"] (Some red) None).
  - repeat constructor; simpl; intuition discriminate.
  - intros color H. injection H as <-. simpl. tauto.
  - intros color H. discriminate.
Defined.

(** ** Applications to disjoint selections *)

Lemma restyleChars_commute a s1 e1 b s2 e2 p cs :
  e1 <= s2 \/ e2 <= s1 ->
  restyleChars b s2 e2 p (restyleChars a s1 e1 p cs)
  = restyleChars a s1 e1 p (restyleChars b s2 e2 p cs).
Proof.
  intros Hd. revert p. induction cs as [|[c x] rest IH]; intros p; simpl.
  - reflexivity.
  - rewrite IH. do 2 f_equal.
    destruct ((s1 <=? p) && (p <? e1)) eqn:E1,
      ((s2 <=? p) && (p <? e2)) eqn:E2; try reflexivity.
    zbool. lia.
Qed.

(** X21.  Style applications to disjoint selections commute on what
    they style: applying the choices of [a] to its selection and then
    those of [b] to its selection gives every character the attributes
    it gets when [b] is applied first and [a] second. *)
Theorem disjoint_applications_commute
    (a b : AppState) (doc : list TextSegment) (s1 e1 s2 e2 : Z) :
  selectionStart a = Some s1 -> selectionEnd a = Some e1 -> s1 < e1 ->
  selectionStart b = Some s2 -> selectionEnd b = Some e2 -> s2 < e2 ->
  e1 <= s2 \/ e2 <= s1 ->
  styledChars
    (segments
       (applyFormattingToSelection
          (setSegments
             (segments (applyFormattingToSelection (setSegments doc a)))
             b)))
  = styledChars
      (segments
         (applyFormattingToSelection
            (setSegments
               (segments (applyFormattingToSelection (setSegments doc b)))
               a))).
Proof.
  intros Ha1 Ha2 Ha Hb1 Hb2 Hb Hd.
  assert (Happly : forall st s e segs,
             selectionStart st = Some s -> selectionEnd st = Some e ->
             s < e ->
             styledChars
               (segments (applyFormattingToSelection (setSegments segs st)))
             = restyleChars st s e 0 (styledChars segs)).
  { intros st s e segs H1 H2 Hlt.
    rewrite (applyFormattingToSelection_unfold _ s e)
      by (try assumption; lia).
    cbn [segments setSelection setSegments].
    rewrite (restyleLoop_ext _ st) by reflexivity.
    apply restyleLoop_chars. exact Hlt. }
  rewrite (Happly b s2 e2), (Happly a s1 e1) by assumption.
  rewrite (Happly a s1 e1), (Happly b s2 e2) by assumption.
  apply restyleChars_commute. exact Hd.
Qed.

Lemma disjoint_applications_commute_witness :
  styledChars
    (segments
       (applyFormattingToSelection
          (setSegments
             (segments
                (applyFormattingToSelection
                   (setSegments (segments redHelloWorld) heUnderlined)))
             worldBlurple)))
  = styledChars
      (segments
         (applyFormattingToSelection
            (setSegments
               (segments
                  (applyFormattingToSelection
                     (setSegments (segments redHelloWorld) worldBlurple)))
               heUnderlined))).
Proof.
  apply (disjoint_applications_commute heUnderlined worldBlurple
           (segments redHelloWorld) 0 2 6 11);
    try reflexivity; lia.
Defined.

(** ** Length conservation, operation by operation *)

Lemma sumOfTextLengths_totalLength (segs : list TextSegment) :
  sumOfTextLengths segs = totalLength segs.
Proof.
  induction segs as [|seg rest IH]; [reflexivity|].
  rewrite totalLength_cons, <- IH. reflexivity.
Qed.

(** C1 (I1, P1, length conservation).  Whatever sequence of events of
    the editor came before -- text changes, selections, colour and
    style picks, style applications to the selection and clear-all --,
    when the handler of the next event completes the lengths of the
    segment texts add up to the length of the current input text; they
    do so in the first state, and still do after the effect of the
    following render. *)
Theorem length_conservation (evs : list Event) (ev : Event) :
  wellFormed evs initialState = true ->
  eventOk (run evs initialState) ev = true ->
  sumOfTextLengths (segments initialState) = len (inputText initialState)
  /\ sumOfTextLengths (segments (handle ev (run evs initialState)))
     = len (inputText (handle ev (run evs initialState)))
  /\ sumOfTextLengths (segments (step ev (run evs initialState)))
     = len (inputText (step ev (run evs initialState))).
Proof.
  intros Hwf Hok. rewrite !sumOfTextLengths_totalLength.
  pose proof (run_invariant evs initialState initialState_invariant Hwf)
    as Hinv.
  split; [reflexivity|]. split.
  - destruct (handle_invariant ev _ Hinv Hok) as [Hlen _]. exact Hlen.
  - destruct (step_invariant ev _ Hinv Hok) as [Hlen _]. exact Hlen.
Qed.

Lemma length_conservation_witness :
  sumOfTextLengths (segments initialState) = len (inputText initialState)
  /\ sumOfTextLengths
       (segments
          (handle (TextChange (lit "hello wor"))
             (run helloWorldStyled initialState)))
     = len (inputText
              (handle (TextChange (lit "hello wor"))
                 (run helloWorldStyled initialState)))
  /\ sumOfTextLengths
       (segments
          (step (TextChange (lit "hello wor"))
             (run helloWorldStyled initialState)))
     = len (inputText
              (step (TextChange (lit "hello wor"))
                 (run helloWorldStyled initialState))).
Proof.
  apply (length_conservation helloWorldStyled (TextChange (lit "hello wor")));
    reflexivity.
Defined.

(** ** What the output depends on *)




(** ** Growth *)

(** C8 (growth).  When the new text is longer than the text of the
    Document, the segment texts one after the other (delta > 0): a
    Document that is empty or is exactly one segment with no style
    attribute is replaced by the single segment that holds the new text
    with no foreground, no background and no style flag; otherwise the
    added suffix -- the new text beyond the old length -- is appended
    to the text of the last segment, whose attributes and all other
    segments are kept. *)
Theorem growth_appends_to_last_segment (st : AppState) (newText : jsstring) :
  len newText > len (fullText (segments st)) ->
  (freshDocument (segments st) ->
   segments (handleTextChange newText st) = [mkSegment newText None None []])
  /\ (~ freshDocument (segments st) ->
      exists front lastSegment,
        segments st = front ++ [lastSegment]
        /\ segments (handleTextChange newText st)
           = front
               ++ [mkSegment
                     (text lastSegment
                        ++ skipn (List.length (fullText (segments st)))
                             newText)
                     (foreground lastSegment) (background lastSegment)
                     (styles lastSegment)]).
Proof.
  intros Hd. split.
  - intros Hf.
    rewrite handleTextChange_fresh by (apply nothingStyledYet_fresh, Hf).
    reflexivity.
  - intros Hf.
    assert (Hn : nothingStyledYet (segments st) = false).
    { destruct (nothingStyledYet (segments st)) eqn:E; [|reflexivity].
      exfalso. apply Hf, nothingStyledYet_fresh, E. }
    destruct (exists_last (l := segments st)) as [front [l Hs]].
    { intros Hnil. apply Hf. left. exact Hnil. }
    exists front, l. split; [exact Hs|].
    pose proof (len_fullText (segments st)) as Hlen.
    rewrite (handleTextChange_grow newText st front l Hn); [| lia | exact Hs].
    rewrite <- Hlen. unfold len at 1. rewrite Nat2Z.id. reflexivity.
Qed.

Lemma growth_appends_to_last_segment_witness :
  (freshDocument (segments (run redAb initialState)) ->
   segments (handleTextChange (lit "ab there") (run redAb initialState))
   = [mkSegment (lit "ab there") None None []])
  /\ (~ freshDocument (segments (run redAb initialState)) ->
      exists front lastSegment,
        segments (run redAb initialState) = front ++ [lastSegment]
        /\ segments
             (handleTextChange (lit "ab there") (run redAb initialState))
           = front
               ++ [mkSegment
                     (text lastSegment
                        ++ skipn
                             (List.length
                                (fullText
                                   (segments (run redAb initialState))))
                             (lit "ab there"))
                     (foreground lastSegment) (background lastSegment)
                     (styles lastSegment)]).
Proof.
  apply (growth_appends_to_last_segment (run redAb initialState)
           (lit "ab there")).
  reflexivity.
Defined.

(** ** Shrinking, segment by segment *)

Lemma shrinkLoop_shape segs remaining :
  0 <= remaining <= totalLength segs ->
  exists k cut,
    shrinkLoop segs remaining [] = firstn k segs ++ cut
    /\ ((cut = [] /\ totalLength (firstn k segs) = remaining)
        \/ exists seg,
             nth_error segs k = Some seg
             /\ 0 < remaining - totalLength (firstn k segs) < len (text seg)
             /\ cut = [withText seg
                         (firstn
                            (Z.to_nat
                               (remaining - totalLength (firstn k segs)))
                            (text seg))]).
Proof.
  revert remaining. induction segs as [|seg rest IH]; intros remaining Hr.
  - rewrite totalLength_nil in Hr. exists 0%nat, [].
    split; [reflexivity | left; split; [reflexivity|]].
    cbn [firstn]. rewrite totalLength_nil. lia.
  - cbn [shrinkLoop app]. pose proof (len_nonneg (text seg)) as Hn.
    rewrite totalLength_cons in Hr.
    destruct (remaining <=? 0) eqn:E0; zbool.
    { exists 0%nat, []. split; [reflexivity | left; split; [reflexivity|]].
      cbn [firstn]. rewrite totalLength_nil. lia. }
    destruct (remaining >=? len (text seg)) eqn:E1; zbool.
    + destruct (IH (remaining - len (text seg))) as (k & cut & Heq & Hcut);
        [lia|].
      exists (S k), cut. rewrite shrinkLoop_acc, Heq. split; [reflexivity|].
      cbn [firstn nth_error]. rewrite totalLength_cons.
      destruct Hcut as [[-> Hk]|(x & Hx & Hlt & ->)].
      * left. split; [reflexivity | lia].
      * right. exists x.
        replace (remaining - (len (text seg) + totalLength (firstn k rest)))
          with (remaining - len (text seg) - totalLength (firstn k rest))
          by lia.
        auto.
    + exists 0%nat, [withText seg (slice (text seg) 0 (Some remaining))].
      rewrite shrinkLoop_acc, shrinkLoop_zero, app_nil_r.
      split; [reflexivity|].
      right. exists seg. cbn [firstn nth_error].
      rewrite totalLength_nil, Z.sub_0_r. repeat split; try lia.
      rewrite slice_inside by lia. cbn [skipn Z.to_nat].
      rewrite Z.sub_0_r. reflexivity.
Qed.

(** X20.  Shrinking a styled Document keeps a run of leading segments
    exactly as they are and cuts at most one segment.  Either the kept
    run spells exactly as many characters as the new text has and
    nothing is cut; or the new length falls inside the segment behind
    the run, and that segment keeps its attributes and as many of its
    first characters as are missing.  All segments behind are
    dropped. *)
Theorem shrink_cuts_at_most_one_segment (st : AppState) (newText : jsstring) :
  nothingStyledYet (segments st) = false ->
  len newText < len (fullText (segments st)) ->
  exists k cut,
    segments (handleTextChange newText st) = firstn k (segments st) ++ cut
    /\ ((cut = []
         /\ len (fullText (firstn k (segments st))) = len newText)
        \/ exists seg,
             nth_error (segments st) k = Some seg
             /\ 0 < len newText - len (fullText (firstn k (segments st)))
                < len (text seg)
             /\ cut = [mkSegment
                         (firstn
                            (Z.to_nat
                               (len newText
                                - len (fullText (firstn k (segments st)))))
                            (text seg))
                         (foreground seg) (background seg) (styles seg)]).
Proof.
  intros Hf Hd. rewrite len_fullText in Hd.
  rewrite handleTextChange_shrink by (auto; lia).
  destruct (shrinkLoop_shape (segments st) (len newText))
    as (k & cut & Heq & Hcut); [pose proof (len_nonneg newText); lia|].
  exists k, cut. split; [exact Heq|]. rewrite len_fullText. exact Hcut.
Qed.

Lemma shrink_cuts_at_most_one_segment_witness :
  exists k cut,
    segments (handleTextChange (lit "hello w") redHelloWorld)
    = firstn k (segments redHelloWorld) ++ cut
    /\ ((cut = []
         /\ len (fullText (firstn k (segments redHelloWorld)))
            = len (lit "hello w"))
        \/ exists seg,
             nth_error (segments redHelloWorld) k = Some seg
             /\ 0 < len (lit "hello w")
                    - len (fullText (firstn k (segments redHelloWorld)))
                < len (text seg)
             /\ cut = [mkSegment
                         (firstn
                            (Z.to_nat
                               (len (lit "hello w")
                                - len (fullText
                                         (firstn k
                                            (segments redHelloWorld)))))
                            (text seg))
                         (foreground seg) (background seg) (styles seg)]).
Proof.
  apply (shrink_cuts_at_most_one_segment redHelloWorld (lit "hello w"));
    reflexivity.
Defined.

(** ** From the order of the toggles to the order of the codes *)

Lemma run_styleWholeText (t : jsstring) (sty : list jsstring)
    (fg bg : option ColorOption) :
  0 < len t -> NoDup sty ->
  (forall color, fg = Some color -> In color foregroundColors) ->
  (forall color, bg = Some color -> In color backgroundColors) ->
  run (styleWholeText t sty fg bg) initialState
  = mkState t
      [mkSegment t (option_map colorCode fg) (option_map colorCode bg) sty]
      fg bg sty None None.
Proof.
  intros Hpos Hnd Hfg Hbg. unfold styleWholeText. rewrite run_app.
  set (st1 := run [TextChange t; TextSelect 0 (len t)] initialState).
  assert (H1 : st1 = mkState t [plain t] None None [] (Some 0)
                       (Some (len t))).
  { unfold st1. destruct t as [|c rest]; [unfold len in Hpos; simpl in Hpos; lia|].
    reflexivity. }
  clearbody st1. subst st1.
  rewrite run_app, run_pickAll by (try assumption; try reflexivity; discriminate).
  cbn [inputText segments selectionStart selectionEnd run].
  unfold step. cbn [handle]. unfold applyFormattingToSelection.
  cbn [selectionStart selectionEnd].
  replace (0 =? len t) with false by (symmetry; apply Z.eqb_neq; lia).
  cbn [segments].
  rewrite restyleLoop_cons by lia.
  rewrite pieces_overlap by (cbn [plain text]; lia).
  cbn [plain text restyleLoop app].
  replace (0 <? 0) with false by reflexivity.
  replace (0 + len t >? len t) with false
    by (symmetry; rewrite Z.gtb_ltb; apply Z.ltb_ge; lia).
  replace (Z.max 0 (0 - 0)) with 0 by reflexivity.
  replace (Z.min (len t) (len t - 0)) with (len t) by lia.
  rewrite slice_whole. cbn [app].
  unfold restyled, plain.
  cbn [selectedForeground selectedBackground selectedStyles foreground
       background styles].
  rewrite (or_palette foregroundColors fg) by auto.
  rewrite (or_palette backgroundColors bg) by auto.
  replace (if len sty >? 0 then sty else []) with sty
    by (destruct sty; reflexivity).
  rewrite syncEffect_segments by (cbn; discriminate).
  reflexivity.
Qed.

Lemma attributeCode_palette (table : list ColorOption)
    (sel : option ColorOption) :
  (table = foregroundColors \/ table = backgroundColors) ->
  (forall color, sel = Some color -> In color table) ->
  attributeCode (option_map colorCode sel)
  = match sel with Some color => [colorCode color] | None => [] end.
Proof.
  intros Ht Hin. destruct sel as [color|]; [|reflexivity].
  unfold attributeCode. simpl. rewrite palette_codes_truthy; [reflexivity|].
  destruct Ht as [-> | ->]; [left | right]; apply Hin; reflexivity.
Qed.

Lemma isBlank_false_len (t : jsstring) : isBlank t = false -> 0 < len t.
Proof.
  destruct t as [|c rest]; [discriminate|].
  intros _. unfold len. simpl. lia.
Qed.

(** Typed, selected as a whole, restyled: the output carries the codes
    of the choices in the order in which the flags were switched on. *)
Lemma styleWholeText_output (t : jsstring) (sty : list jsstring)
    (fg bg : option ColorOption) :
  isBlank t = false -> NoDup sty ->
  (forall color, fg = Some color -> In color foregroundColors) ->
  (forall color, bg = Some color -> In color backgroundColors) ->
  chosenCodes sty fg bg <> [] ->
  generateColoredText (run (styleWholeText t sty fg bg) initialState)
  = fenceOpen ++ escaped (chosenCodes sty fg bg) t ++ fenceClose.
Proof.
  intros Hb Hnd Hfg Hbg Hcodes.
  rewrite run_styleWholeText by (auto using isBlank_false_len).
  rewrite generateColoredText_spans; [|exact Hb|discriminate].
  cbn [segments map List.concat]. rewrite app_nil_r.
  set (seg := mkSegment t (option_map colorCode fg) (option_map colorCode bg)
                sty).
  assert (Hc : segmentCodes seg = chosenCodes sty fg bg).
  { rewrite segmentCodes_eq. unfold seg, chosenCodes.
    cbn [styles foreground background].
    rewrite (attributeCode_palette foregroundColors fg) by auto.
    rewrite (attributeCode_palette backgroundColors bg) by auto.
    reflexivity. }
  assert (Hh : hasStyle seg = true).
  { rewrite <- segmentCodes_hasStyle, Hc. apply Z.gtb_lt.
    destruct (chosenCodes sty fg bg); [contradiction|].
    unfold len. simpl. lia. }
  unfold span. rewrite Hh. rewrite <- segmentCodes_eq, Hc.
  cbn [seg text].
  destruct t as [|c rest]; [discriminate|]. cbn [truthy negb].
  unfold escaped, ansiCode, resetCode. rewrite <- !app_assoc. reflexivity.
Qed.

(** C4, amended.  For every styled segment with text, wherever it
    stands in the Document, the encoder emits the escape introducer,
    the semicolon-joined codes -- the style codes in the order in which
    the segment stores them, then the foreground code, then the
    background code --, [m], the text and the reset sequence.  The
    stored order is the order of the toggles: [toggleStyle] puts a flag
    that is switched on behind those already on; a style application
    with flags chosen stores the chosen list, as it is, for every
    selected character; so a text that is typed, selected as a whole
    and restyled after the flags of [sty] were switched on one after
    the other is encoded with the codes of [sty] in that order,
    followed by the foreground and the background code.  Bold switched
    on before underline gives [1;4], underline before bold [4;1]. *)
Theorem codes_are_emitted_in_stored_order
    (pre post : list TextSegment) (seg : TextSegment) (result : jsstring) :
  text seg <> [] -> hasStyle seg = true ->
  encodeLoop (pre ++ seg :: post) result
  = encodeLoop pre result
      ++ (ESC ++ lit "["
            ++ join (lit ";")
                 (styles seg ++ attributeCode (foreground seg)
                    ++ attributeCode (background seg))
            ++ lit "m" ++ text seg ++ ESC ++ lit "[0m")
      ++ encodeLoop post []
  /\ (forall (code : jsstring) (st : AppState),
        includes (selectedStyles st) code = false ->
        selectedStyles (toggleStyle code st) = selectedStyles st ++ [code])
  /\ (forall (st : AppState) (s e i : Z) (c : N) (attrs : Attrs),
        selectionStart st = Some s -> selectionEnd st = Some e ->
        s < e -> s <= i < e -> selectedStyles st <> [] ->
        charAt (segments st) i = Some (c, attrs) ->
        exists fg' bg',
          charAt (segments (applyFormattingToSelection st)) i
          = Some (c, (fg', bg', selectedStyles st)))
  /\ (forall (t : jsstring) (sty : list jsstring)
             (fg bg : option ColorOption),
        isBlank t = false -> NoDup sty ->
        (forall color, fg = Some color -> In color foregroundColors) ->
        (forall color, bg = Some color -> In color backgroundColors) ->
        chosenCodes sty fg bg <> [] ->
        segments (run (styleWholeText t sty fg bg) initialState)
        = [mkSegment t (option_map colorCode fg) (option_map colorCode bg)
             sty]
        /\ generateColoredText
             (run (styleWholeText t sty fg bg) initialState)
           = fenceOpen ++ escaped (chosenCodes sty fg bg) t ++ fenceClose)
  /\ (forall t : jsstring,
        isBlank t = false ->
        generateColoredText
          (run (styleWholeText t [lit "1"; lit "4"] None None) initialState)
        = fenceOpen ++ ESC ++ lit "[1;4m" ++ t ++ ESC ++ lit "[0m"
            ++ fenceClose
        /\ generateColoredText
             (run (styleWholeText t [lit "4"; lit "1"] None None)
                initialState)
           = fenceOpen ++ ESC ++ lit "[4;1m" ++ t ++ ESC ++ lit "[0m"
               ++ fenceClose).
Proof.
  intros Ht Hs. split; [|split; [|split; [|split]]].
  - rewrite !encodeLoop_spans, map_app, concat_app.
    cbn [map List.concat]. unfold span at 2.
    destruct (text seg) as [|c rest] eqn:E; [contradiction|].
    cbn [truthy negb]. rewrite Hs. unfold ansiCode, resetCode.
    rewrite <- !app_assoc. reflexivity.
  - intros code st. apply toggleStyle_appends.
  - intros st s e i c [[fg bg] sty] Hstart Hend Hlt Hi Hchosen Hc.
    rewrite (charAt_applyFormattingToSelection st s e) by assumption.
    rewrite Hc. cbn [option_map fst snd].
    replace ((s <=? i) && (i <? e)) with true
      by (symmetry; apply andb_true_iff; split;
          [apply Z.leb_le | apply Z.ltb_lt]; lia).
    cbn [mergeAttrs].
    replace (len (selectedStyles st) >? 0) with true.
    + eexists _, _. reflexivity.
    + symmetry. apply Z.gtb_lt.
      destruct (selectedStyles st); [contradiction|].
      unfold len. simpl. lia.
  - intros t sty fg bg Hb Hnd Hfg Hbg Hcodes. split.
    + rewrite run_styleWholeText by (auto using isBlank_false_len).
      reflexivity.
    + apply styleWholeText_output; assumption.
  - intros t Hb.
    assert (H14 : NoDup [lit "1"; lit "4"])
      by (repeat constructor; simpl; intuition discriminate).
    assert (H41 : NoDup [lit "4"; lit "1"])
      by (repeat constructor; simpl; intuition discriminate).
    split.
    + rewrite styleWholeText_output;
        [ unfold escaped; rewrite <- !app_assoc; reflexivity
        | exact Hb | exact H14 | | | ];
        try (intros color H; discriminate). discriminate.
    + rewrite styleWholeText_output;
        [ unfold escaped; rewrite <- !app_assoc; reflexivity
        | exact Hb | exact H41 | | | ];
        try (intros color H; discriminate). discriminate.
Qed.

Lemma codes_are_emitted_in_stored_order_witness :
  encodeLoop
    ([plain (lit "a")]
       ++ mkSegment (lit "hi") (Some (lit "31")) None [lit "4"; lit "1"]
       :: [plain (lit "b")]) fenceOpen
  = encodeLoop [plain (lit "a")] fenceOpen
      ++ (ESC ++ lit "["
            ++ join (lit ";")
                 ([lit "4"; lit "1"] ++ attributeCode (Some (lit "31"))
                    ++ attributeCode None)
            ++ lit "m" ++ lit "hi" ++ ESC ++ lit "[0m")
      ++ encodeLoop [plain (lit "b")] []
  /\ (forall (code : jsstring) (st : AppState),
        includes (selectedStyles st) code = false ->
        selectedStyles (toggleStyle code st) = selectedStyles st ++ [code])
  /\ (forall (st : AppState) (s e i : Z) (c : N) (attrs : Attrs),
        selectionStart st = Some s -> selectionEnd st = Some e ->
        s < e -> s <= i < e -> selectedStyles st <> [] ->
        charAt (segments st) i = Some (c, attrs) ->
        exists fg' bg',
          charAt (segments (applyFormattingToSelection st)) i
          = Some (c, (fg', bg', selectedStyles st)))
  /\ (forall (t : jsstring) (sty : list jsstring)
             (fg bg : option ColorOption),
        isBlank t = false -> NoDup sty ->
        (forall color, fg = Some color -> In color foregroundColors) ->
        (forall color, bg = Some color -> In color backgroundColors) ->
        chosenCodes sty fg bg <> [] ->
        segments (run (styleWholeText t sty fg bg) initialState)
        = [mkSegment t (option_map colorCode fg) (option_map colorCode bg)
             sty]
        /\ generateColoredText
             (run (styleWholeText t sty fg bg) initialState)
           = fenceOpen ++ escaped (chosenCodes sty fg bg) t ++ fenceClose)
  /\ (forall t : jsstring,
        isBlank t = false ->
        generateColoredText
          (run (styleWholeText t [lit "1"; lit "4"] None None) initialState)
        = fenceOpen ++ ESC ++ lit "[1;4m" ++ t ++ ESC ++ lit "[0m"
            ++ fenceClose
        /\ generateColoredText
             (run (styleWholeText t [lit "4"; lit "1"] None None)
                initialState)
           = fenceOpen ++ ESC ++ lit "[4;1m" ++ t ++ ESC ++ lit "[0m"
               ++ fenceClose).
Proof.
  apply (codes_are_emitted_in_stored_order [plain (lit "a")]
           [plain (lit "b")]
           (mkSegment (lit "hi") (Some (lit "31")) None [lit "4"; lit "1"])
           fenceOpen);
    [discriminate | reflexivity].
Defined.
